(** * A model of the trading_system signal, sizing and backtesting core

    Shallow embedding of
    - [src/backtesting/engine.py]        (BacktestingEngine)
    - [src/portfolio/drawdown_monitor.py] (calculate_drawdowns)
    - [src/portfolio/position_sizer.py]   (PositionSizer)
    - [src/strategies/aggregation.py]     (SignalAggregator)
    - [src/strategies/canslim.py], [trend_following.py], [livermore.py],
      [dan_zanger.py] (the strategies' generate_signals)

    Python floats are modelled as exact rationals [Q]; a Python [int]
    is a [Z]; a date (pandas Timestamp) is a day number [Z]; a dict is an
    association list kept in insertion order, as a Python dict iterates. *)

From Stdlib Require Import ZArith QArith Qround Qminmax List String Ascii Bool Lia.
From Stdlib Require Import Sorted Permutation Qabs Lqa.
Import ListNotations.
Set Warnings "-register-all".


Open Scope string_scope.
Open Scope list_scope.
Open Scope Z_scope.

(* ------------------------------------------------------------------ *)
(** ** Generic helpers: errors, association lists, rationals *)

(** The exceptions the modelled code raises. [ValueError] and [KeyError]
    carry the message of the [raise] statement; [MissingColumns] is the
    [ValueError(f"Missing required columns for <label>: {missing}")] of the
    strategies; [NaNCell] marks a NaN read where a number is needed (the
    exact model carries no NaN). *)
Inductive Err : Type :=
| ValueError (msg : string)
| KeyError (msg : string)
| MissingColumns (label : string) (missing : list string)
| NaNCell.

Definition result (A : Type) : Type := (Err + A)%type.

Definition bind {A B : Type} (m : result A) (k : A -> result B) : result B :=
  match m with
  | inl e => inl e
  | inr a => k a
  end.

Notation "x <- m ;; k" := (bind m (fun x => k))
  (at level 61, m at next level, right associativity).

Definition Qltb (x y : Q) : bool := negb (Qle_bool y x).

(** [int(x)] of a Python float: truncation toward zero. *)
Definition py_int (q : Q) : Z :=
  if Qle_bool 0 q then Qfloor q else - Qfloor (- q).

Section Assoc.
Context {K V : Type} (eqb : K -> K -> bool).

(** [d.get(k)] *)
Fixpoint assoc_get (k : K) (m : list (K * V)) : option V :=
  match m with
  | [] => None
  | (k', v) :: r => if eqb k k' then Some v else assoc_get k r
  end.

(** [d[k] = v]: an existing key keeps its place, a new key goes last. *)
Fixpoint assoc_set (k : K) (v : V) (m : list (K * V)) : list (K * V) :=
  match m with
  | [] => [(k, v)]
  | (k', v') :: r => if eqb k k' then (k', v) :: r else (k', v') :: assoc_set k v r
  end.

(** [del d[k]] *)
Fixpoint assoc_remove (k : K) (m : list (K * V)) : list (K * V) :=
  match m with
  | [] => []
  | (k', v') :: r => if eqb k k' then r else (k', v') :: assoc_remove k r
  end.

Definition assoc_mem (k : K) (m : list (K * V)) : bool :=
  match assoc_get k m with Some _ => true | None => false end.
End Assoc.

(** [d[k].append(v)] on a [defaultdict(list)]. *)
Definition append_at {K V : Type} (eqb : K -> K -> bool) (k : K) (v : V)
    (m : list (K * list V)) : list (K * list V) :=
  match assoc_get eqb k m with
  | Some l => assoc_set eqb k (l ++ [v]) m
  | None => assoc_set eqb k [v] m
  end.

(** [d[k]] on a [defaultdict(list)], read without inserting the key. *)
Definition assoc_getd {K V : Type} (eqb : K -> K -> bool) (k : K)
    (m : list (K * list V)) : list V :=
  match assoc_get eqb k m with Some l => l | None => [] end.

(** Stable insertion sort by a key, as Python's [sorted] / [list.sort]. *)
Section StableSort.
Context {A : Type} (key : A -> Z).

Fixpoint insert_by (x : A) (l : list A) : list A :=
  match l with
  | [] => [x]
  | y :: ys => if key x <=? key y then x :: y :: ys else y :: insert_by x ys
  end.

Fixpoint sort_by (l : list A) : list A :=
  match l with
  | [] => []
  | x :: xs => insert_by x (sort_by xs)
  end.
End StableSort.

(* ------------------------------------------------------------------ *)
(** ** Signals (strategies/base.py) *)

Inductive SignalType : Type := BUY | SELL.

Definition SignalType_eqb (a b : SignalType) : bool :=
  match a, b with BUY, BUY | SELL, SELL => true | _, _ => false end.

Definition SignalType_name (t : SignalType) : string :=
  match t with BUY => "BUY" | SELL => "SELL" end.

(** A metadata value. [MNum] is any Python [int] or [float] (what
    [isinstance(value, (int, float))] accepts). *)
Inductive mval : Type :=
| MNum (q : Q)
| MStr (s : string)
| MDate (d : Z)
| MList (l : list mval)
| MNone.

Definition Metadata := list (string * mval).

Record StrategySignal : Type := mkSignal {
  symbol : string;
  date : Z;
  strategy : string;
  signal_type : SignalType;
  confidence : Q;
  metadata : Metadata
}.

(** [metadata.get(key)] for each key in turn; the first numeric value. *)
Fixpoint first_numeric (keys : list string) (m : Metadata) : option Q :=
  match keys with
  | [] => None
  | k :: ks =>
      match assoc_get String.eqb k m with
      | Some (MNum q) => Some q
      | _ => first_numeric ks m
      end
  end.

(* ------------------------------------------------------------------ *)
(** ** Price frames (pandas DataFrame indexed by date) *)

(** A row maps a column name to its cell; [None] is NaN. *)
Definition Row := string -> option Q.

Record Frame : Type := mkFrame {
  columns : list string;
  rows : list (Z * Row)
}.

Definition index (fr : Frame) : list Z := map fst (rows fr).

Definition has_column (c : string) (fr : Frame) : bool :=
  existsb (String.eqb c) (columns fr).

(** [DataFrame.empty]: the frame has no rows or no columns. *)
Definition frame_empty (fr : Frame) : bool :=
  match rows fr, columns fr with
  | [], _ | _, [] => true
  | _, _ => false
  end.

(** [df.sort_index()] *)
Definition sort_index (fr : Frame) : Frame :=
  mkFrame (columns fr) (sort_by fst (rows fr)).

(** [frame.loc[date, col]] (first row carrying that date). *)
Definition loc (fr : Frame) (d : Z) (c : string) : result Q :=
  match find (fun r => Z.eqb (fst r) d) (rows fr) with
  | None => inl (KeyError "date")
  | Some (_, row) => match row c with Some q => inr q | None => inl NaNCell end
  end.

(* ------------------------------------------------------------------ *)
(** ** calculate_drawdowns (portfolio/drawdown_monitor.py) *)

Fixpoint cummax_from (m : Q) (l : list Q) : list Q :=
  match l with
  | [] => []
  | x :: r => let m' := Qmax m x in m' :: cummax_from m' r
  end.

(** [equity_curve.cummax()] *)
Definition cummax (l : list Q) : list Q :=
  match l with
  | [] => []
  | x :: r => x :: cummax_from x r
  end.

Fixpoint list_min (m : Q) (l : list Q) : Q :=
  match l with
  | [] => m
  | x :: r => list_min (Qmin m x) r
  end.

(** [calculate_drawdowns]: the drawdown series and [abs(min)] of it. *)
Definition calculate_drawdowns (curve : list Q) : list Q * Q :=
  match curve with
  | [] => ([], 0%Q)
  | _ =>
      let running_max := cummax curve in
      let drawdowns := map (fun '(v, m) => ((v - m) / m)%Q) (combine curve running_max) in
      match drawdowns with
      | [] => ([], 0%Q)
      | x :: r => (drawdowns, Qabs (list_min x r))
      end
  end.

Module Drawdown.

Record DrawdownEvent : Type := mkDrawdownEvent {
  peak_date : Z;
  trough_date : Z;
  peak_value : Q;
  trough_value : Q;
  drawdown_pct : Q
}.

(** The state of the [for date, value in equity_curve.items()] loop of
    [detect_drawdown_events]. *)
Record DDLoop : Type := mkDDLoop {
  l_peak_date : Z;
  l_peak_value : Q;
  l_trough_date : Z;
  l_trough_value : Q;
  in_drawdown : bool;
  events : list DrawdownEvent
}.

(** One iteration of the loop. *)
Definition dd_step (threshold : Q) (s : DDLoop) (dv : Z * Q) : DDLoop :=
  let '(d, value) := dv in
  if Qle_bool (l_peak_value s) value then
    mkDDLoop d value d value false (events s)
  else
    let s1 :=
      if Qltb value (l_trough_value s) then
        let current_drawdown := (1 - value / l_peak_value s)%Q in
        if Qle_bool threshold current_drawdown && negb (in_drawdown s) then
          mkDDLoop (l_peak_date s) (l_peak_value s) d value true
            (events s ++ [mkDrawdownEvent (l_peak_date s) d (l_peak_value s) value
                                          current_drawdown])
        else mkDDLoop (l_peak_date s) (l_peak_value s) d value (in_drawdown s) (events s)
      else s in
    if Qle_bool (l_peak_value s1) value then
      mkDDLoop (l_peak_date s1) (l_peak_value s1) (l_trough_date s1) (l_trough_value s1)
               false (events s1)
    else s1.

(** [detect_drawdown_events]; the curve is [equity_curve.items()]. *)
Definition detect_drawdown_events (curve : list (Z * Q)) (threshold : Q)
    : list DrawdownEvent :=
  match fst (calculate_drawdowns (map snd curve)) with
  | [] => []
  | _ =>
      match curve with
      | [] => []
      | (d0, v0) :: _ =>
          events (fold_left (dd_step threshold) curve (mkDDLoop d0 v0 d0 v0 false []))
      end
  end.

(** The properties every reported event has. *)
Definition event_ok (th : Q) (e : DrawdownEvent) : Prop :=
  (th <= drawdown_pct e)%Q /\
  drawdown_pct e = (1 - trough_value e / peak_value e)%Q /\
  (trough_value e < peak_value e)%Q.

(** The chain of events over a curve with increasing dates. *)
Definition dd_chain (lastd : Z) (s : DDLoop) : Prop :=
  StronglySorted (fun e1 e2 => trough_date e1 < peak_date e2 /\
                               (peak_value e1 <= peak_value e2)%Q) (events s) /\
  Forall (fun e => peak_date e < trough_date e /\ trough_date e <= lastd /\
                   (peak_value e <= l_peak_value s)%Q) (events s) /\
  (in_drawdown s = false -> Forall (fun e => trough_date e < l_peak_date s) (events s)) /\
  l_peak_date s <= lastd.

End Drawdown.

(** ** DrawdownAlertManager (portfolio/alerts.py) *)

Module Alerts.
Import Drawdown.

Record DrawdownAlertConfig : Type := mkAlertConfig {
  threshold : Q;
  min_interval_days : Z
}.

Definition default_config : DrawdownAlertConfig := mkAlertConfig (15 # 100) 7.

(** [_should_alert]; [last] is [self._last_alert_date] and a date is a
    day number, so [delta.days] is the difference. *)
Definition should_alert (cfg : DrawdownAlertConfig) (last : option Z) (trough : Z) : bool :=
  match last with
  | None => true
  | Some l => min_interval_days cfg <=? trough - l
  end.

(** The loop of [process_equity_curve]: the alerts so far and
    [self._last_alert_date]. *)
Definition alert_step (cfg : DrawdownAlertConfig) (acc : list DrawdownEvent * option Z)
    (e : DrawdownEvent) : list DrawdownEvent * option Z :=
  let '(alerts, last) := acc in
  if should_alert cfg last (trough_date e) then (alerts ++ [e], Some (trough_date e))
  else acc.

(** [process_equity_curve]: the alerts and the manager's new
    [_last_alert_date]. *)
Definition process_equity_curve (cfg : DrawdownAlertConfig) (last : option Z)
    (curve : list (Z * Q)) : list DrawdownEvent * option Z :=
  fold_left (alert_step cfg) (detect_drawdown_events curve (threshold cfg)) ([], last).

(** The dates [ds] follow [prev] and each other by at least [m] days. *)
Fixpoint spaced (m : Z) (prev : option Z) (ds : list Z) : Prop :=
  match ds with
  | [] => True
  | d :: r => match prev with None => True | Some p => m <= d - p end /\ spaced m (Some d) r
  end.

End Alerts.

(* ------------------------------------------------------------------ *)
(** ** BacktestingEngine (backtesting/engine.py) *)

Module Engine.

Record BacktestingEngine : Type := mkEngine { transaction_cost : Q }.

(** [BacktestingEngine.__init__] *)
Definition make_engine (tc : Q) : result BacktestingEngine :=
  if Qltb tc 0 then inl (ValueError "transaction_cost must be non-negative")
  else inr (mkEngine tc).

(** One dict returned by the caller's [position_sizer]; [None] is an
    absent key. *)
Record Alloc : Type := mkAlloc {
  al_symbol : option string;
  al_shares : option Q;
  al_entry_price : option Q;
  al_allocation : option Q
}.

Record Entry : Type := mkEntry {
  e_symbol : string;
  e_shares : Z;
  e_price : Q;
  e_date : Z;
  e_strategy : string
}.

Record Position : Type := mkPosition {
  p_shares : Z;
  p_entry_price : Q;
  p_entry_date : Z;
  p_strategy : string;
  p_entry_fees : Q
}.

Inductive Action : Type := ABUY | ASELL.

Record Trade : Type := mkTrade {
  t_action : Action;
  t_symbol : string;
  t_date : Z;
  t_shares : Q;
  t_price : Q;
  t_value : Q;
  t_fees : Q;
  t_strategy : string;
  t_pnl : option Q
}.

Record Metrics : Type := mkMetrics {
  final : Q;
  total_return : Q;
  max_drawdown : Q;
  num_trades : nat
}.

Record BacktestResult : Type := mkResult {
  equity_curve : list (Z * Q);
  trades : list Trade;
  metrics : Metrics
}.

Definition Strategy := string -> Frame -> result (list StrategySignal).
Definition PositionSizerFn := list StrategySignal -> Q -> list Alloc.

(** [_get_close] for a frame whose columns are plain names: the ["close"]
    column, then ["{symbol}_close"]. *)
Definition get_close (fr : Frame) (d : Z) (sym : string) : result Q :=
  if has_column "close" fr then loc fr d "close"
  else let candidate := String.append sym "_close" in
       if has_column candidate fr then loc fr d candidate
       else inl (KeyError "Unable to locate close price in price_data").

Definition signal_price_keys : list string :=
  ["price"; "entry_price"; "close"; "breakout_price"].

(** [_signal_price] *)
Definition signal_price (s : StrategySignal) (fr : Frame) (d : Z) (sym : string)
    : result Q :=
  match first_numeric signal_price_keys (metadata s) with
  | Some q => inr q
  | None => get_close fr d sym
  end.

Fixpoint Z_sorted_b (l : list Z) : bool :=
  match l with
  | x :: (y :: _) as r => (x <=? y) && Z_sorted_b r
  | _ => true
  end.

(** [_align_date]: [index.searchsorted(target)] on the sorted index is
    the number of dates strictly before [target]. *)
Definition align_date (target : Z) (idx : list Z) : option Z :=
  match idx with
  | [] => None
  | _ =>
      let idx' := if Z_sorted_b idx then idx else sort_by (fun x => x) idx in
      let pos := List.length (filter (fun x => x <? target) idx') in
      nth_error idx' pos
  end.

(** [_signals_by_symbol] *)
Definition signals_by_symbol (signals : list StrategySignal) (t : SignalType)
    : list (string * list StrategySignal) :=
  let grouped :=
    fold_left (fun acc s => if SignalType_eqb (signal_type s) t
                            then append_at String.eqb (symbol s) s acc else acc)
              signals [] in
  map (fun kv => (fst kv, sort_by date (snd kv))) grouped.

(** [_signals_by_date] *)
Definition signals_by_date (signals : list StrategySignal) (t : SignalType)
    (idx : list Z) : list (Z * list StrategySignal) :=
  fold_left (fun acc s =>
               if SignalType_eqb (signal_type s) t then
                 match align_date (date s) idx with
                 | None => acc
                 | Some d => append_at Z.eqb d s acc
                 end
               else acc)
            signals [].

(** [_prepare_entries]; [buys] is the dict that [signals.pop(0)] mutates. *)
Fixpoint prepare_entries (allocs : list Alloc)
    (buys : list (string * list StrategySignal)) (fr : Frame) (fallback : string)
    : result (list Entry) :=
  match allocs with
  | [] => inr []
  | a :: rest =>
      let sym := match al_symbol a with
                 | Some s => if String.eqb s "" then fallback else s
                 | None => fallback
                 end in
      match assoc_get String.eqb sym buys with
      | None | Some [] => prepare_entries rest buys fr fallback
      | Some (sg :: sgs) =>
          let buys' := assoc_set String.eqb sym sgs buys in
          match align_date (date sg) (index fr) with
          | None => prepare_entries rest buys' fr fallback
          | Some d =>
              price <- match al_entry_price a with
                       | Some p => if Qeq_bool p 0 then signal_price sg fr d sym
                                   else inr p
                       | None => signal_price sg fr d sym
                       end ;;
              if Qle_bool price 0 then prepare_entries rest buys' fr fallback
              else
                let shares :=
                  match al_shares a with
                  | Some sh => py_int sh
                  | None =>
                      let v := match al_allocation a with Some v => v | None => 0%Q end in
                      if Qltb 0 v then Qfloor (v / price) else 0
                  end in
                if shares <=? 0 then prepare_entries rest buys' fr fallback
                else
                  rest' <- prepare_entries rest buys' fr fallback ;;
                  inr (mkEntry sym shares price d (strategy sg) :: rest')
          end
      end
  end.

(** The simulation loop's state. *)
Record SimState : Type := mkState {
  cash : Q;
  positions : list (string * Position);
  trades_log : list Trade;
  equity_values : list Q;
  entries_by_date : list (Z * list Entry)
}.

(** One scheduled BUY entry filled on [d]. *)
Definition buy_fill (tc : Q) (d : Z) (st : SimState) (entry : Entry) : SimState :=
  let price := e_price entry in
  let shares := e_shares entry in
  if shares <=? 0 then st else
  let max_affordable := Qfloor (cash st / (price * (1 + tc))) in
  if max_affordable <=? 0 then st else
  let shares := if shares >? max_affordable then max_affordable else shares in
  let cost := (inject_Z shares * price)%Q in
  let fees := (cost * tc)%Q in
  mkState (cash st - (cost + fees))%Q
          (assoc_set String.eqb (e_symbol entry)
             (mkPosition shares price d (e_strategy entry) fees) (positions st))
          (trades_log st ++ [mkTrade ABUY (e_symbol entry) d (inject_Z shares) price
                                     cost fees (e_strategy entry) None])
          (equity_values st) (entries_by_date st).

(** One SELL signal processed on [d]. *)
Definition sell_fill (tc : Q) (fr : Frame) (d : Z) (st : SimState)
    (sg : StrategySignal) : result SimState :=
  let sym := symbol sg in
  match assoc_get String.eqb sym (positions st) with
  | None => inr st
  | Some position =>
      price <- signal_price sg fr d sym ;;
      let shares := p_shares position in
      let proceeds := (inject_Z shares * price)%Q in
      let fees := (proceeds * tc)%Q in
      let pnl := (proceeds - fees - inject_Z shares * p_entry_price position
                  - p_entry_fees position)%Q in
      inr (mkState (cash st + (proceeds - fees))%Q
                   (assoc_remove String.eqb sym (positions st))
                   (trades_log st ++ [mkTrade ASELL sym d (inject_Z shares) price
                                              proceeds fees (strategy sg) (Some pnl)])
                   (equity_values st) (entries_by_date st))
  end.

Fixpoint sell_fills (tc : Q) (fr : Frame) (d : Z) (st : SimState)
    (sgs : list StrategySignal) : result SimState :=
  match sgs with
  | [] => inr st
  | sg :: r => st' <- sell_fill tc fr d st sg ;; sell_fills tc fr d st' r
  end.

(** [cash + sum(shares * close)] over the open positions. *)
Fixpoint mark_positions (fr : Frame) (d : Z) (ps : list (string * Position)) (acc : Q)
    : result Q :=
  match ps with
  | [] => inr acc
  | (sym, p) :: r =>
      price <- get_close fr d sym ;;
      mark_positions fr d r (acc + inject_Z (p_shares p) * price)%Q
  end.

(** One iteration of [for current_date in frame.index]. *)
Definition step_day (tc : Q) (fr : Frame) (sells : list (Z * list StrategySignal))
    (st : SimState) (d : Z) : result SimState :=
  let todays := match assoc_get Z.eqb d (entries_by_date st) with
                | Some l => l | None => [] end in
  let st0 := mkState (cash st) (positions st) (trades_log st) (equity_values st)
                     (assoc_remove Z.eqb d (entries_by_date st)) in
  let st1 := fold_left (buy_fill tc d) todays st0 in
  let sg := match assoc_get Z.eqb d sells with Some l => l | None => [] end in
  st2 <- sell_fills tc fr d st1 sg ;;
  equity <- mark_positions fr d (positions st2) (cash st2) ;;
  inr (mkState (cash st2) (positions st2) (trades_log st2)
               (equity_values st2 ++ [equity]) (entries_by_date st2)).

Fixpoint simulate (tc : Q) (fr : Frame) (sells : list (Z * list StrategySignal))
    (dates : list Z) (st : SimState) : result SimState :=
  match dates with
  | [] => inr st
  | d :: ds => st' <- step_day tc fr sells st d ;; simulate tc fr sells ds st'
  end.

Fixpoint last_Q (l : list Q) : Q :=
  match l with
  | [] => 0%Q
  | [x] => x
  | _ :: r => last_Q r
  end.

(** What [run] has computed when its simulation loop starts: the sorted
    frame, the SELL signals by aligned date and the BUY entries by date. *)
Record Setup : Type := mkSetup {
  s_frame : Frame;
  s_sells : list (Z * list StrategySignal);
  s_entries : list (Z * list Entry)
}.

(** [BacktestingEngine.run] up to its simulation loop. *)
Definition prepare (price_data : Frame) (strat : Strategy)
    (position_sizer : PositionSizerFn) (initial_capital : Q) (sym : string)
    : result Setup :=
  match frame_empty price_data with
  | true => inl (ValueError "Price data cannot be empty")
  | false =>
  if Qle_bool initial_capital 0 then inl (ValueError "initial_capital must be positive")
  else
  let frame := sort_index price_data in
  signals <- strat sym frame ;;
  let allocations := position_sizer signals initial_capital in
  let buy_signals := signals_by_symbol signals BUY in
  let sell_signals_by_date := signals_by_date signals SELL (index frame) in
  pending_entries <- prepare_entries allocations buy_signals frame sym ;;
  let by_date := fold_left (fun acc e => append_at Z.eqb (e_date e) e acc)
                           pending_entries [] in
  inr (mkSetup frame sell_signals_by_date by_date)
  end.

Definition initial_state (initial_capital : Q) (su : Setup) : SimState :=
  mkState initial_capital [] [] [] (s_entries su).

(** [BacktestingEngine.run] *)
Definition run (eng : BacktestingEngine) (price_data : Frame) (strat : Strategy)
    (position_sizer : PositionSizerFn) (initial_capital : Q) (sym : string)
    : result BacktestResult :=
  su <- prepare price_data strat position_sizer initial_capital sym ;;
  let frame := s_frame su in
  st <- simulate (transaction_cost eng) frame (s_sells su) (index frame)
                 (initial_state initial_capital su) ;;
  let values := equity_values st in
  if negb (Nat.eqb (List.length values) (List.length (index frame)))
  then inl (ValueError "Length of values does not match length of index")
  else
  let equity_curve := combine (index frame) values in
  let max_dd := snd (calculate_drawdowns values) in
  let final_equity := last_Q values in
  let total_return := (final_equity / initial_capital - 1)%Q in
  inr (mkResult equity_curve (trades_log st)
         (mkMetrics final_equity total_return max_dd (List.length (trades_log st)))).

(** Every SELL recorded in a trade log was filled at a non-negative
    price. *)
Definition sell_fills_nonneg (l : list Trade) : Prop :=
  Forall (fun tr => t_action tr = ASELL -> (0 <= t_price tr)%Q) l.

(** The simulation invariant: cash is non-negative as long as every SELL
    filled so far had a non-negative price, every open position holds a
    non-negative number of shares and every pending entry has a positive
    price. *)
Definition state_ok (st : SimState) : Prop :=
  (sell_fills_nonneg (trades_log st) -> 0 <= cash st)%Q /\
  Forall (fun kv => 0 <= p_shares (snd kv)) (positions st) /\
  Forall (fun kv => Forall (fun e => (0 < e_price e)%Q) (snd kv)) (entries_by_date st).

(** What a trade does to the cash: a BUY pays its value and fees, a SELL
    receives its value less fees. *)
Definition trade_cash (tr : Trade) : Q :=
  match t_action tr with
  | ABUY => (- (t_value tr + t_fees tr))%Q
  | ASELL => (t_value tr - t_fees tr)%Q
  end.

Definition cash_flow (l : list Trade) : Q :=
  fold_right (fun tr acc => (trade_cash tr + acc)%Q) 0%Q l.

End Engine.

(** The BUY-at-index-1 / SELL-at-last-index strategy and the half-capital
    sizer of [tests/test_backtesting.py], over a five-day close series. *)
Module Scenario.
Import Engine.

Definition cell (c : string) (close volume : Q) : Row :=
  fun k => if String.eqb k "close" then Some close
           else if String.eqb k "volume" then Some volume else None.

(** [pd.DataFrame({"close": [...], "volume": [...]},
    index=pd.date_range("2024-01-01", periods=5))], day 0 = 2024-01-01. *)
Definition data : Frame :=
  mkFrame ["close"; "volume"]
    [(0, cell "" 100 1000); (1, cell "" 102 1100); (2, cell "" 105 1200);
     (3, cell "" 108 1300); (4, cell "" 110 1400)].

Fixpoint last_Z (l : list Z) : option Z :=
  match l with
  | [] => None
  | [x] => Some x
  | _ :: r => last_Z r
  end.

(** [BuySellStrategy.generate_signals] *)
Definition buy_sell_strategy : Strategy :=
  fun sym prices =>
    let idx := index prices in
    if (List.length idx <? 3)%nat then inr [] else
    match nth_error idx 1, last_Z idx with
    | Some buy_date, Some sell_date =>
        pb <- loc prices buy_date "close" ;;
        ps <- loc prices sell_date "close" ;;
        inr [mkSignal sym buy_date "dummy" BUY (1 # 2) [("price", MNum pb)];
             mkSignal sym sell_date "dummy" SELL (1 # 2) [("price", MNum ps)]]
    | _, _ => inr []
    end.

(** [half_sizer]; the default of [metadata.get("price", ...)] is the
    first close of [data]. *)
Definition half_sizer (data0 : Frame) : PositionSizerFn :=
  fun signals equity =>
    match filter (fun s => SignalType_eqb (signal_type s) BUY) signals with
    | [] => []
    | b :: _ =>
        let default := match rows data0 with
                       | (_, r) :: _ => match r "close" with Some q => q | None => 0%Q end
                       | [] => 0%Q
                       end in
        let price := match assoc_get String.eqb "price" (metadata b) with
                     | Some (MNum q) => q
                     | _ => default
                     end in
        let shares := Qfloor ((equity / 2) / price) in
        [mkAlloc (Some (symbol b)) (Some (inject_Z shares)) (Some price)
                 (Some (inject_Z shares * price)%Q)]
    end.

(** A SELL signal whose metadata carries both [entry_price] and [price]. *)
Definition sell_meta_signal (sym : string) : StrategySignal :=
  mkSignal sym 4 "dummy" SELL (1 # 2) [("entry_price", MNum 10); ("price", MNum 20)].

Definition sell_meta_strategy : Strategy :=
  fun sym prices =>
    inr [mkSignal sym 1 "dummy" BUY (1 # 2) [("price", MNum 102)]; sell_meta_signal sym].

(** Three days of close 100. *)
Definition flat_data : Frame :=
  mkFrame ["close"; "volume"]
    [(0, cell "" 100 1000); (1, cell "" 100 1000); (2, cell "" 100 1000)].

Definition empty_data : Frame := mkFrame ["close"; "volume"] [].

(** One CAN SLIM row: close 98 against a 52-week high of 100, earnings
    growth 0.30, relative strength 0.9, volume change 0.25. *)
Definition canslim_row : Row :=
  fun k => if String.eqb k "close" then Some 98%Q
           else if String.eqb k "volume" then Some 1250%Q
           else if String.eqb k "earnings_growth" then Some (30 # 100)%Q
           else if String.eqb k "relative_strength" then Some (9 # 10)%Q
           else if String.eqb k "fifty_two_week_high" then Some 100%Q
           else if String.eqb k "average_volume" then Some 1000%Q
           else if String.eqb k "volume_change" then Some (25 # 100)%Q
           else None.

Definition canslim_data : Frame :=
  mkFrame ["close"; "volume"; "earnings_growth"; "relative_strength";
           "fifty_two_week_high"; "average_volume"; "volume_change"]
          [(0, canslim_row)].

End Scenario.

(* ------------------------------------------------------------------ *)
(** ** PositionSizer (portfolio/position_sizer.py) *)

Module Sizer.

Record RiskManagementConfig : Type := mkRisk {
  max_positions : Z;
  individual_stop : Q;
  portfolio_stop : Q;
  sector_limits : list (string * Q)
}.

Record PositionAllocation : Type := mkAllocation {
  pa_symbol : string;
  shares : Z;
  allocation : Q;
  pa_confidence : Q;
  sector : string;
  entry_price : Q;
  stop_price : Q
}.

(** [str.lower] on ASCII letters. *)
Definition lower_ascii (c : ascii) : ascii :=
  let n := nat_of_ascii c in
  if (65 <=? n)%nat && (n <=? 90)%nat then ascii_of_nat (n + 32) else c.

Fixpoint lower (s : string) : string :=
  match s with
  | EmptyString => EmptyString
  | String c r => String (lower_ascii c) (lower r)
  end.

(** [_get_sector_limit] *)
Definition get_sector_limit (cfg : RiskManagementConfig) (sec : string) : Q :=
  match assoc_get String.eqb sec (sector_limits cfg) with
  | Some l => l
  | None => match assoc_get String.eqb "other" (sector_limits cfg) with
            | Some l => l
            | None => 1%Q
            end
  end.

(** [_extract_price] *)
Definition extract_price (s : StrategySignal) : option Q :=
  first_numeric ["entry_price"; "breakout_price"; "price"; "close"] (metadata s).

(** [sorted(..., key=lambda s: s.confidence, reverse=True)], stable. *)
Fixpoint insert_desc (x : StrategySignal) (l : list StrategySignal) : list StrategySignal :=
  match l with
  | [] => [x]
  | y :: ys => if Qle_bool (confidence y) (confidence x) then x :: y :: ys
               else y :: insert_desc x ys
  end.

Fixpoint sort_desc (l : list StrategySignal) : list StrategySignal :=
  match l with
  | [] => []
  | x :: xs => insert_desc x (sort_desc xs)
  end.

(** [sector_allocated.get(sector, 0.0)] *)
Definition current_alloc (sa : list (string * Q)) (sec : string) : Q :=
  match assoc_get String.eqb sec sa with Some v => v | None => 0%Q end.

Section Loop.
Variable cfg : RiskManagementConfig.
Variable account_equity : Q.
Variable max_pos : Z.
Variable base_allocation : Q.
Variable sector_map : list (string * string).

(** The [for signal in sorted_signals] loop; its state is
    [allocations], [sector_allocated] and [total_positions]. *)
Fixpoint size_loop (sigs : list StrategySignal) (allocs : list PositionAllocation)
    (sector_allocated : list (string * Q)) (total_positions : Z)
    : list PositionAllocation :=
  match sigs with
  | [] => allocs
  | s :: rest =>
      if total_positions >=? max_pos then allocs else
      match extract_price s with
      | None => size_loop rest allocs sector_allocated total_positions
      | Some price =>
          if Qle_bool price 0 then size_loop rest allocs sector_allocated total_positions
          else
          let sec := lower (match assoc_get String.eqb (symbol s) sector_map with
                            | Some x => x | None => "other" end) in
          let limit := get_sector_limit cfg sec in
          let current := current_alloc sector_allocated sec in
          let remaining := (account_equity * limit - current)%Q in
          if Qle_bool remaining 0 then size_loop rest allocs sector_allocated total_positions
          else
          let budget := Qmin base_allocation remaining in
          let sh := Qfloor (budget / price) in
          if sh <=? 0 then size_loop rest allocs sector_allocated total_positions
          else
          let value := (inject_Z sh * price)%Q in
          let stop := (price * (1 - individual_stop cfg))%Q in
          size_loop rest
            (allocs ++ [mkAllocation (symbol s) sh value (confidence s) sec price stop])
            (assoc_set String.eqb sec (current + value)%Q sector_allocated)
            (total_positions + 1)
      end
  end.
End Loop.

(** [PositionSizer.size_positions]; [sector_map=None] is the empty map. *)
Definition size_positions (cfg : RiskManagementConfig) (signals : list StrategySignal)
    (account_equity : Q) (sector_map : list (string * string)) : list PositionAllocation :=
  if Qle_bool account_equity 0 then [] else
  let max_pos := Z.max 1 (max_positions cfg) in
  let base_allocation := (account_equity / inject_Z max_pos)%Q in
  let sector_allocated := map (fun kv => (fst kv, 0%Q)) (sector_limits cfg) in
  let sorted_signals :=
    sort_desc (filter (fun s => SignalType_eqb (signal_type s) BUY) signals) in
  size_loop cfg account_equity max_pos base_allocation sector_map
            sorted_signals [] sector_allocated 0.

(** Total [allocation] of the allocations in sector [sec]. *)
Definition sector_total (sec : string) (allocs : list PositionAllocation) : Q :=
  fold_right (fun a acc => if String.eqb (sector a) sec then (allocation a + acc)%Q else acc)
             0%Q allocs.

(** The sum of the allocations' [allocation]. *)
Definition total_allocation (allocs : list PositionAllocation) : Q :=
  fold_right (fun a acc => (allocation a + acc)%Q) 0%Q allocs.

(** The sector an allocation of [sym] is booked under. *)
Definition sector_of (sector_map : list (string * string)) (sym : string) : string :=
  lower (match assoc_get String.eqb sym sector_map with Some x => x | None => "other" end).

(** What the sizing loop guarantees of each allocation it makes from a
    signal of [S] with the per-position budget [base]. *)
Definition alloc_ok (cfg : RiskManagementConfig) (base : Q)
    (sector_map : list (string * string)) (S : list StrategySignal)
    (a : PositionAllocation) : Prop :=
  0 < shares a /\ (0 < entry_price a)%Q /\
  allocation a = (inject_Z (shares a) * entry_price a)%Q /\
  (allocation a <= base)%Q /\
  stop_price a = (entry_price a * (1 - individual_stop cfg))%Q /\
  sector a = sector_of sector_map (pa_symbol a) /\
  exists s, In s S /\ symbol s = pa_symbol a /\ confidence s = pa_confidence a /\
            extract_price s = Some (entry_price a).

(** The sizing loop's invariant: per sector, the allocations' total is the
    [sector_allocated] entry, and that entry is within the sector's cap. *)
Definition loop_inv (cfg : RiskManagementConfig) (E : Q)
    (allocs : list PositionAllocation) (sa : list (string * Q)) : Prop :=
  forall sec, (sector_total sec allocs == current_alloc sa sec)%Q /\
              (current_alloc sa sec <= E * get_sector_limit cfg sec)%Q.

End Sizer.

(** [build_position_sizer] (main.py): [PositionSizer.size_positions]
    without a sector map, each allocation turned into a dict by [asdict]. *)
Module Main.

Definition asdict (a : Sizer.PositionAllocation) : Engine.Alloc :=
  Engine.mkAlloc (Some (Sizer.pa_symbol a)) (Some (inject_Z (Sizer.shares a)))
                 (Some (Sizer.entry_price a)) (Some (Sizer.allocation a)).

Definition build_position_sizer (cfg : Sizer.RiskManagementConfig) : Engine.PositionSizerFn :=
  fun signals equity => map asdict (Sizer.size_positions cfg signals equity []).

End Main.

(* ------------------------------------------------------------------ *)
(** ** SignalAggregator (strategies/aggregation.py) *)

Module Aggregation.

Record AggregationParams : Type := mkParams {
  min_confidence : Q;
  weighting : list (string * Q)
}.

Definition default_params : AggregationParams := mkParams (1 # 2) [].

(** [self.params.weighting.get(signal.strategy, 1.0)] *)
Definition weight (p : AggregationParams) (s : StrategySignal) : Q :=
  match assoc_get String.eqb (strategy s) (weighting p) with
  | Some w => w
  | None => 1%Q
  end.

Definition total_weight (p : AggregationParams) (l : list StrategySignal) : Q :=
  fold_left (fun acc s => (acc + weight p s)%Q) l 0%Q.

Definition weighted_confidence (p : AggregationParams) (l : list StrategySignal) : Q :=
  fold_left (fun acc s => (acc + weight p s * confidence s)%Q) l 0%Q.

(** [combined_metadata[key].append(value)] over every item of every signal. *)
Definition combine_metadata (l : list StrategySignal) : list (string * list mval) :=
  fold_left (fun acc s =>
               fold_left (fun acc' kv => append_at String.eqb (fst kv) (snd kv) acc')
                         (metadata s) acc)
            l [].

(** [max(dates)] *)
Definition max_date (l : list StrategySignal) : Z :=
  match l with
  | [] => 0
  | s :: r => fold_left (fun m s' => Z.max m (date s')) r (date s)
  end.

(** [_combine_signals] *)
Definition combine_signals (p : AggregationParams) (sym : string) (t : SignalType)
    (signal_list : list StrategySignal) : option StrategySignal :=
  let tw := total_weight p signal_list in
  let wc := weighted_confidence p signal_list in
  if Qeq_bool tw 0 then None else
  let avg := (wc / tw)%Q in
  if Qltb avg (min_confidence p) then None else
  let flattened := map (fun kv => (fst kv, MList (snd kv))) (combine_metadata signal_list) in
  let flattened := assoc_set String.eqb "strategies"
                     (MList (map (fun s => MStr (strategy s)) signal_list)) flattened in
  let flattened := assoc_set String.eqb "confidence_values"
                     (MList (map (fun s => MNum (confidence s)) signal_list)) flattened in
  Some (mkSignal sym (max_date signal_list) "aggregated" t avg flattened).

(** [grouped[signal.symbol][signal.signal_type.name].append(signal)]; the
    inner key is the signal type, in one-to-one correspondence with its
    name. *)
Definition group_signals (signals : list StrategySignal)
    : list (string * list (SignalType * list StrategySignal)) :=
  fold_left (fun g s =>
               let inner := match assoc_get String.eqb (symbol s) g with
                            | Some m => m | None => [] end in
               assoc_set String.eqb (symbol s)
                 (append_at SignalType_eqb (signal_type s) s inner) g)
            signals [].

Definition option_list {A : Type} (o : option A) : list A :=
  match o with Some a => [a] | None => [] end.

(** [SignalAggregator.aggregate] *)
Definition aggregate (p : AggregationParams) (signals : list StrategySignal)
    : list StrategySignal :=
  flat_map (fun '(sym, type_map) =>
              flat_map (fun '(t, l) => option_list (combine_signals p sym t l)) type_map)
           (group_signals signals).

(** The signals of one [(symbol, signal_type)] group, in input order. *)
Definition group_of (sym : string) (t : SignalType) (l : list StrategySignal)
    : list StrategySignal :=
  filter (fun s => String.eqb (symbol s) sym && SignalType_eqb (signal_type s) t) l.

(** The values stored under [key] in the metadata of the signals, in order. *)
Definition values_of (key : string) (l : list StrategySignal) : list mval :=
  flat_map (fun s => map snd (filter (fun kv => String.eqb (fst kv) key) (metadata s))) l.

(** Least and greatest confidence of a group. *)
Definition conf_min (l : list StrategySignal) : Q :=
  match l with
  | [] => 0%Q
  | s :: r => fold_left (fun m s' => Qmin m (confidence s')) r (confidence s)
  end.

Definition conf_max (l : list StrategySignal) : Q :=
  match l with
  | [] => 0%Q
  | s :: r => fold_left (fun m s' => Qmax m (confidence s')) r (confidence s)
  end.

(** [grouped[symbol][signal_type]], read without inserting. *)
Definition grouped_get (sym : string) (t : SignalType)
    (g : list (string * list (SignalType * list StrategySignal))) : list StrategySignal :=
  match assoc_get String.eqb sym g with
  | Some tm => assoc_getd SignalType_eqb t tm
  | None => []
  end.

End Aggregation.

(* ------------------------------------------------------------------ *)
(** ** Strategies (strategies/*.py) *)

Module Strategies.

Definition missing_columns (required : list string) (fr : Frame) : list string :=
  filter (fun c => negb (has_column c fr)) required.

Definition last_row (fr : Frame) : option (Z * Row) :=
  match rev (rows fr) with [] => None | r :: _ => Some r end.

(** *** CAN SLIM (strategies/canslim.py) *)

Record CanSlimParams : Type := mkCanSlim {
  earnings_growth_threshold : Q;
  relative_strength_threshold : Q;
  near_high_threshold : Q;
  volume_increase_threshold : Q;
  min_score : Q;
  weights : list (string * Q)
}.

Definition canslim_default : CanSlimParams :=
  mkCanSlim (25 # 100) (8 # 10) (15 # 100) (20 # 100) (75 # 100)
    [("earnings", 1 # 4); ("relative_strength", 1 # 4);
     ("price_near_high", 1 # 4); ("volume_increase", 1 # 4)].

Definition canslim_required : list string :=
  ["close"; "volume"; "earnings_growth"; "relative_strength";
   "fifty_two_week_high"; "average_volume"; "volume_change"].

(** [weights[k]] *)
Definition weight_of (p : CanSlimParams) (k : string) : result Q :=
  match assoc_get String.eqb k (weights p) with
  | Some w => inr w
  | None => inl (KeyError k)
  end.

(** [_calculate_components]; [row.get(c)] is [None] for NaN or absent. *)
Definition calculate_components (p : CanSlimParams) (row : Row)
    : result (list (string * Q)) :=
  earnings_score <-
    match row "earnings_growth" with
    | Some eg => if Qle_bool (earnings_growth_threshold p) eg
                 then weight_of p "earnings" else inr 0%Q
    | None => inr 0%Q
    end ;;
  rs_score <-
    match row "relative_strength" with
    | Some rs => w <- weight_of p "relative_strength" ;; inr (w * Qmin 1 rs)%Q
    | None => inr 0%Q
    end ;;
  price_score <-
    match row "fifty_two_week_high", row "close" with
    | Some high, Some close =>
        if Qltb 0 high then
          let distance := ((high - close) / high)%Q in
          if Qle_bool distance (near_high_threshold p) then
            w <- weight_of p "price_near_high" ;;
            inr (w * (1 - distance / near_high_threshold p))%Q
          else inr 0%Q
        else inr 0%Q
    | _, _ => inr 0%Q
    end ;;
  volume_score <-
    match row "volume_change" with
    | Some vc => if Qle_bool (volume_increase_threshold p) vc then
                   w <- weight_of p "volume_increase" ;;
                   inr (w * Qmin 1 (vc / volume_increase_threshold p))%Q
                 else inr 0%Q
    | None => inr 0%Q
    end ;;
  inr [("earnings_score", earnings_score); ("relative_strength_score", rs_score);
       ("price_near_high_score", price_score); ("volume_increase_score", volume_score)].

Definition sum_scores (l : list (string * Q)) : Q :=
  fold_left (fun acc kv => (acc + snd kv)%Q) l 0%Q.

(** The configured weight of a component, 0 when the key is absent. *)
Definition weight_or_zero (p : CanSlimParams) (k : string) : Q :=
  match assoc_get String.eqb k (weights p) with
  | Some w => w
  | None => 0%Q
  end.

(** The sum of the four component weights. *)
Definition max_total_score (p : CanSlimParams) : Q :=
  (weight_or_zero p "earnings" + weight_or_zero p "relative_strength" +
   weight_or_zero p "price_near_high" + weight_or_zero p "volume_increase")%Q.

(** [CanSlimStrategy.generate_signals] *)
Definition canslim_generate (p : CanSlimParams) (sym : string) (prices : Frame)
    : result (list StrategySignal) :=
  match frame_empty prices with
  | true => inr []
  | false =>
    let df := sort_index prices in
    match missing_columns canslim_required df with
    | (_ :: _) as missing => inl (MissingColumns "CAN SLIM strategy" missing)
    | [] =>
      match last_row df with
      | None => inr []
      | Some (d, latest) =>
          comps <- calculate_components p latest ;;
          let total := sum_scores comps in
          if Qltb total (min_score p) then inr []
          else inr [mkSignal sym d "can_slim" BUY total
                      (map (fun kv => (fst kv, MNum (snd kv))) comps
                       ++ [("total_score", MNum total)])]
      end
    end
  end.

(** *** The guards of the three scanning strategies

    Each [generate_signals] below checks emptiness, required columns and
    the minimum lookback, then runs a detection loop over the bars (EMA
    crossovers, consolidation breakouts, the cup-and-handle scan). The
    detection loop is a section variable: what is modelled and proved
    about these strategies concerns the guards, for every loop. *)

Record TrendFollowingParams : Type := mkTrend {
  fast_span : Z; slow_span : Z; atr_period : Z; atr_multiplier : Q; tf_min_bars : Z
}.
Definition trend_default : TrendFollowingParams := mkTrend 10 30 14 2 60.

Record LivermoreParams : Type := mkLivermore {
  consolidation_window : Z; max_range_percentage : Q; lv_breakout_threshold : Q;
  lv_volume_multiplier : Q; lv_min_bars : Z
}.
Definition livermore_default : LivermoreParams :=
  mkLivermore 20 (15 # 100) (2 # 100) (13 # 10) 40.

Record DanZangerParams : Type := mkDanZanger {
  cup_lookback : Z; handle_min : Z; handle_max : Z; cup_depth_min : Q; cup_depth_max : Q;
  recovery_threshold : Q; handle_pullback_min : Q; handle_pullback_max : Q;
  dz_breakout_threshold : Q; dz_volume_multiplier : Q; volume_mean_window : Z
}.
Definition dan_zanger_default : DanZangerParams :=
  mkDanZanger 120 5 15 (12 # 100) (35 # 100) (85 # 100) (5 # 100) (15 # 100)
              (2 # 100) (15 # 10) 20.

Definition trend_required : list string := ["close"; "high"; "low"].
Definition livermore_required : list string := ["close"; "high"; "low"; "volume"].
Definition dan_zanger_required : list string := ["close"; "volume"].

Definition nrows (fr : Frame) : Z := Z.of_nat (List.length (rows fr)).

(** [df.dropna(subset=required)] *)
Definition dropna (required : list string) (fr : Frame) : Frame :=
  mkFrame (columns fr)
    (filter (fun r => forallb (fun c => match snd r c with Some _ => true | None => false end)
                              required) (rows fr)).

Section Guards.
Variable trend_detect : TrendFollowingParams -> string -> Frame -> list StrategySignal.
Variable livermore_detect : LivermoreParams -> string -> Frame -> list StrategySignal.
Variable dan_zanger_detect : DanZangerParams -> string -> Frame -> list StrategySignal.

(** [TrendFollowingStrategy.generate_signals] *)
Definition trend_generate (p : TrendFollowingParams) (sym : string) (prices : Frame)
    : result (list StrategySignal) :=
  match frame_empty prices with
  | true => inr []
  | false =>
    let df := sort_index prices in
    match missing_columns trend_required df with
    | (_ :: _) as missing => inl (MissingColumns "trend following strategy" missing)
    | [] =>
      if nrows df <? Z.max (tf_min_bars p) (slow_span p + atr_period p) then inr []
      else inr (trend_detect p sym df)
    end
  end.

(** [LivermoreBreakoutStrategy.generate_signals] *)
Definition livermore_generate (p : LivermoreParams) (sym : string) (prices : Frame)
    : result (list StrategySignal) :=
  match frame_empty prices with
  | true => inr []
  | false =>
    let df := sort_index prices in
    match missing_columns livermore_required df with
    | (_ :: _) as missing => inl (MissingColumns "Livermore strategy" missing)
    | [] =>
      if nrows df <? Z.max (lv_min_bars p) (consolidation_window p + 5) then inr []
      else inr (livermore_detect p sym df)
    end
  end.

(** [DanZangerCupHandleStrategy.generate_signals] *)
Definition dan_zanger_generate (p : DanZangerParams) (sym : string) (prices : Frame)
    : result (list StrategySignal) :=
  match frame_empty prices with
  | true => inr []
  | false =>
    let df := sort_index prices in
    match missing_columns dan_zanger_required df with
    | (_ :: _) as missing => inl (MissingColumns "Dan Zanger strategy" missing)
    | [] =>
      let df := dropna dan_zanger_required df in
      if nrows df <? cup_lookback p then inr []
      else inr (dan_zanger_detect p sym df)
    end
  end.
End Guards.

End Strategies.

(* ================================================================== *)
(** * Properties *)

(** ** General lemmas *)

Lemma map_fst_combine {A B : Type} (l1 : list A) (l2 : list B) :
  List.length l1 = List.length l2 -> map fst (combine l1 l2) = l1.
Proof.
  revert l2; induction l1 as [|x r IH]; intros [|y l2] H; simpl in *; try discriminate; auto.
  f_equal; apply IH; lia.
Qed.

Lemma Sorted_map_iff {A B : Type} (R : B -> B -> Prop) (f : A -> B) (l : list A) :
  Sorted R (map f l) -> Sorted (fun a b => R (f a) (f b)) l.
Proof.
  induction l as [|x r IH]; simpl; intros H; constructor.
  - apply IH. now inversion H.
  - inversion H as [|? ? ? Hhd]; subst. destruct r; constructor.
    now inversion Hhd.
Qed.

Lemma sort_by_sorted {A : Type} (key : A -> Z) (l : list A) :
  Sorted (fun a b => key a <= key b) l -> sort_by key l = l.
Proof.
  induction l as [|x r IH]; simpl; intros H; auto.
  inversion H as [|? ? Hr Hhd]; subst. rewrite (IH Hr).
  destruct r as [|y r']; simpl; auto.
  inversion Hhd as [|? ? Hxy]; subst.
  replace (key x <=? key y) with true by (symmetry; now apply Z.leb_le). reflexivity.
Qed.

Lemma insert_by_length {A : Type} (key : A -> Z) (x : A) (l : list A) :
  List.length (insert_by key x l) = S (List.length l).
Proof.
  induction l as [|y r IH]; simpl; auto. destruct (key x <=? key y); simpl; auto.
Qed.

Lemma sort_by_length {A : Type} (key : A -> Z) (l : list A) :
  List.length (sort_by key l) = List.length l.
Proof.
  induction l as [|x r IH]; simpl; auto. now rewrite insert_by_length, IH.
Qed.

Lemma missing_columns_sort (req : list string) (fr : Frame) :
  Strategies.missing_columns req (sort_index fr) = Strategies.missing_columns req fr.
Proof. reflexivity. Qed.

(** A frame with rows and all of a nonempty list of required columns is
    not empty. *)
Lemma frame_empty_false (fr : Frame) (req : list string) :
  rows fr <> [] -> req <> [] -> Strategies.missing_columns req fr = [] ->
  frame_empty fr = false.
Proof.
  intros Hr Hq Hm. unfold frame_empty.
  destruct (rows fr); [congruence|].
  destruct (columns fr) eqn:Ec; [|reflexivity].
  unfold Strategies.missing_columns, has_column in Hm. rewrite Ec in Hm.
  destruct req; [congruence|discriminate].
Qed.

Lemma sort_index_rows_nil (fr : Frame) :
  rows fr <> [] -> rows (sort_index fr) <> [].
Proof.
  intros H E. apply H. simpl in E.
  pose proof (sort_by_length fst (rows fr)) as L. rewrite E in L.
  destruct (rows fr); simpl in L; [reflexivity | discriminate].
Qed.

Lemma Sorted_weaken {A : Type} (R R' : A -> A -> Prop) (l : list A) :
  (forall a b, R a b -> R' a b) -> Sorted R l -> Sorted R' l.
Proof.
  intros HR H; induction H as [|x r Hr IH Hhd]; constructor; auto.
  destruct Hhd; constructor; auto.
Qed.

Lemma prepare_frame (pd : Frame) strat sz cap sym su :
  Engine.prepare pd strat sz cap sym = inr su -> Engine.s_frame su = sort_index pd.
Proof.
  unfold Engine.prepare. destruct (frame_empty pd); [discriminate|].
  destruct (Qle_bool cap 0); [discriminate|].
  destruct (strat sym (sort_index pd)); simpl; [discriminate|].
  destruct Engine.prepare_entries; simpl; [discriminate|].
  intros H; inversion H; reflexivity.
Qed.

(** A whole number of shares at [price] never costs more than [budget]. *)
Lemma floor_shares_within (budget price : Q) :
  (0 < price)%Q -> (inject_Z (Qfloor (budget / price)) * price <= budget)%Q.
Proof.
  intros Hp.
  apply Qle_trans with ((budget / price) * price)%Q.
  - apply Qmult_le_compat_r; [apply Qfloor_le|lra].
  - rewrite Qmult_comm, Qmult_div_r; [apply Qle_refl|]. intros E; rewrite E in Hp.
    discriminate.
Qed.

Lemma bind_inr {A B : Type} (m : result A) (k : A -> result B) b :
  bind m k = inr b -> exists a, m = inr a /\ k a = inr b.
Proof. destruct m as [e|a]; simpl; [discriminate|eauto]. Qed.

Section ForallAssoc.
Context {K V : Type} (eqb : K -> K -> bool) (P : V -> Prop).

Lemma Forall_assoc_set (k : K) (v : V) (m : list (K * V)) :
  Forall (fun kv => P (snd kv)) m -> P v -> Forall (fun kv => P (snd kv)) (assoc_set eqb k v m).
Proof.
  induction m as [|[k' v'] r IH]; simpl; intros Hm Hv; [constructor; auto|].
  inversion Hm; subst. destruct (eqb k k'); constructor; auto.
Qed.

Lemma Forall_assoc_remove (k : K) (m : list (K * V)) :
  Forall (fun kv => P (snd kv)) m -> Forall (fun kv => P (snd kv)) (assoc_remove eqb k m).
Proof.
  induction m as [|[k' v'] r IH]; simpl; intros Hm; [constructor|].
  inversion Hm; subst. destruct (eqb k k'); auto.
Qed.

Lemma assoc_get_Forall (k : K) (m : list (K * V)) v :
  Forall (fun kv => P (snd kv)) m -> assoc_get eqb k m = Some v -> P v.
Proof.
  induction m as [|[k' v'] r IH]; simpl; intros Hm H; [discriminate|].
  inversion Hm; subst. destruct (eqb k k'); [inversion H; subst; auto|auto].
Qed.
End ForallAssoc.

Lemma Forall_append_at {K V : Type} (eqb : K -> K -> bool) (P : V -> Prop) k v
    (m : list (K * list V)) :
  Forall (fun kv => Forall P (snd kv)) m -> P v ->
  Forall (fun kv => Forall P (snd kv)) (append_at eqb k v m).
Proof.
  intros Hm Hv. unfold append_at.
  destruct (assoc_get eqb k m) as [l|] eqn:E.
  - apply (Forall_assoc_set eqb (Forall P)); auto.
    apply Forall_app; split; [eapply (assoc_get_Forall eqb (Forall P)); eauto|auto].
  - apply (Forall_assoc_set eqb (Forall P)); auto.
Qed.

Section AssocEq.
Context {K V : Type} (eqb : K -> K -> bool)
        (eqb_iff : forall a b, eqb a b = true <-> a = b).

Lemma eqb_sym_b a b : eqb a b = eqb b a.
Proof.
  destruct (eqb a b) eqn:E; destruct (eqb b a) eqn:F; auto.
  - apply eqb_iff in E; subst. rewrite <- F. symmetry; now apply eqb_iff.
  - apply eqb_iff in F; subst. rewrite <- E. now apply eqb_iff.
Qed.

Lemma assoc_get_set_eq (k k' : K) (v : V) (m : list (K * V)) :
  assoc_get eqb k (assoc_set eqb k' v m) =
  if eqb k k' then Some v else assoc_get eqb k m.
Proof.
  induction m as [|[k0 v0] r IH]; simpl; [now destruct (eqb k k')|].
  destruct (eqb k' k0) eqn:E1.
  - apply eqb_iff in E1; subst k0. simpl. now destruct (eqb k k').
  - simpl. rewrite IH. destruct (eqb k k0) eqn:E2; auto.
    apply eqb_iff in E2; subst k0. rewrite eqb_sym_b, E1. reflexivity.
Qed.

Lemma assoc_get_notin (k : K) (m : list (K * V)) :
  ~ In k (map fst m) -> assoc_get eqb k m = None.
Proof.
  induction m as [|[k0 v0] r IH]; simpl; intros Hn; auto.
  destruct (eqb k k0) eqn:E; [apply eqb_iff in E; subst; tauto|auto].
Qed.

Lemma In_keys_set (x k : K) (v : V) (m : list (K * V)) :
  In x (map fst (assoc_set eqb k v m)) -> x = k \/ In x (map fst m).
Proof.
  induction m as [|[k0 v0] r IH]; simpl; intros H.
  - destruct H as [H|[]]; auto.
  - destruct (eqb k k0); simpl in H; destruct H as [H|H]; auto.
    destruct (IH H); auto.
Qed.

Lemma NoDup_assoc_set (k : K) (v : V) (m : list (K * V)) :
  NoDup (map fst m) -> NoDup (map fst (assoc_set eqb k v m)).
Proof.
  induction m as [|[k0 v0] r IH]; simpl; intros Hnd.
  - repeat constructor; simpl; tauto.
  - inversion Hnd; subst. destruct (eqb k k0) eqn:E; simpl; constructor; auto.
    intros Hin. apply In_keys_set in Hin as [Hin|Hin]; [|tauto].
    subst. rewrite (proj2 (eqb_iff _ _) eq_refl) in E. discriminate.
Qed.

(** Selecting the entry of one key out of a map with distinct keys. *)
Lemma flat_map_select {B : Type} (h : V -> list B) (key : K) (m : list (K * V)) :
  NoDup (map fst m) ->
  flat_map (fun kv => if eqb (fst kv) key then h (snd kv) else []) m =
  match assoc_get eqb key m with Some v => h v | None => [] end.
Proof.
  induction m as [|[k0 v0] r IH]; simpl; intros Hnd; auto.
  inversion Hnd; subst. rewrite (eqb_sym_b key k0).
  destruct (eqb k0 key) eqn:E; [|auto].
  apply eqb_iff in E; subst. rewrite IH, assoc_get_notin; auto using app_nil_r.
Qed.
End AssocEq.

Section AppendAt.
Context {K V : Type} (eqb : K -> K -> bool)
        (eqb_iff : forall a b, eqb a b = true <-> a = b).

Lemma assoc_getd_append_at (k k' : K) (v : V) (m : list (K * list V)) :
  assoc_getd eqb k (append_at eqb k' v m) =
  assoc_getd eqb k m ++ (if eqb k k' then [v] else []).
Proof.
  unfold assoc_getd, append_at.
  destruct (assoc_get eqb k' m) as [l|] eqn:E;
    rewrite (assoc_get_set_eq eqb eqb_iff); destruct (eqb k k') eqn:Ek;
    try (rewrite app_nil_r; reflexivity);
    apply eqb_iff in Ek; subst; rewrite E; reflexivity.
Qed.

Lemma NoDup_append_at (k : K) (v : V) (m : list (K * list V)) :
  NoDup (map fst m) -> NoDup (map fst (append_at eqb k v m)).
Proof.
  unfold append_at; destruct (assoc_get eqb k m); apply (NoDup_assoc_set eqb eqb_iff).
Qed.

Lemma nonempty_append_at (k : K) (v : V) (m : list (K * list V)) :
  Forall (fun kv => snd kv <> []) m -> Forall (fun kv => snd kv <> []) (append_at eqb k v m).
Proof.
  intros Hm. unfold append_at.
  destruct (assoc_get eqb k m) eqn:E;
    apply (Forall_assoc_set eqb (fun l => l <> [])); auto; [|discriminate].
  intros H; apply app_eq_nil in H as [_ H]; discriminate.
Qed.

Lemma assoc_get_getd (k : K) (m : list (K * list V)) :
  Forall (fun kv => snd kv <> []) m ->
  assoc_get eqb k m = match assoc_getd eqb k m with [] => None | l => Some l end.
Proof.
  unfold assoc_getd. intros Hm. destruct (assoc_get eqb k m) as [l|] eqn:E; auto.
  pose proof (assoc_get_Forall eqb (fun l => l <> []) k m l Hm E) as Hl.
  destruct l; [contradiction|reflexivity].
Qed.
End AppendAt.

Lemma filter_flat_map {A B : Type} (P : B -> bool) (f : A -> list B) (l : list A) :
  filter P (flat_map f l) = flat_map (fun x => filter P (f x)) l.
Proof. induction l as [|a r IH]; simpl; auto. now rewrite filter_app, IH. Qed.

Lemma flat_map_nil {A B : Type} (l : list A) : flat_map (fun _ => @nil B) l = [].
Proof. induction l; auto. Qed.

Lemma SignalType_eqb_iff (a b : SignalType) : SignalType_eqb a b = true <-> a = b.
Proof. destruct a, b; simpl; split; congruence. Qed.

(** ** Engine properties *)

Module EngineFacts.
Import Engine Scenario.

(** C1: the worked scenario of the engine: closes [100,102,105,108,110]
    on five consecutive days, capital 100000, no transaction cost, half of
    the capital committed to a BUY at day index 1 and a SELL on the last
    day. The BUY fills 490 shares for 49980 leaving cash 50020, the SELL
    yields 53900, and the metrics are final = 103920, total_return =
    103920/100000 - 1, num_trades = 2, max_drawdown = 0. *)
Theorem worked_scenario :
  (exists su st,
      prepare data buy_sell_strategy (half_sizer data) 100000 "TEST" = inr su /\
      simulate 0 (s_frame su) (s_sells su) (firstn 2 (index (s_frame su)))
               (initial_state 100000 su) = inr st /\
      cash st == 50020)%Q /\
  (exists r tb ts,
      run (mkEngine 0) data buy_sell_strategy (half_sizer data) 100000 "TEST" = inr r /\
      trades r = [tb; ts] /\
      t_action tb = ABUY /\ t_date tb = 1%Z /\ t_shares tb == 490 /\ t_value tb == 49980 /\
      t_action ts = ASELL /\ t_date ts = 4%Z /\ t_shares ts == 490 /\ t_value ts == 53900 /\
      final (metrics r) == 103920 /\
      total_return (metrics r) == 103920 / 100000 - 1 /\
      num_trades (metrics r) = 2%nat /\
      max_drawdown (metrics r) == 0)%Q.
Proof.
  split.
  - do 2 eexists. split; [vm_compute; reflexivity|].
    split; [vm_compute; reflexivity|]. vm_compute. reflexivity.
  - do 3 eexists. split; [vm_compute; reflexivity|].
    split; [vm_compute; reflexivity|].
    repeat split; vm_compute; reflexivity.
Qed.

(** C2 (counterexample): a SELL signal whose metadata has [entry_price]
    10 and [price] 20 is filled at 20, while the position sizer's key
    order ([entry_price] first) resolves it to 10. *)
Lemma sell_price_not_sizer_order :
  exists r tr,
    run (mkEngine 0) data sell_meta_strategy (half_sizer data) 100000 "TEST" = inr r /\
    In tr (trades r) /\ t_action tr = ASELL /\ (t_price tr == 20)%Q /\
    Sizer.extract_price (sell_meta_signal "TEST") = Some 10%Q /\ ~ (t_price tr == 10)%Q.
Proof.
  do 2 eexists. split; [vm_compute; reflexivity|].
  split; [simpl; right; left; reflexivity|].
  repeat split; try (vm_compute; reflexivity). vm_compute. discriminate.
Qed.

(** C2 (amended): a SELL fill of an open position appends one SELL trade
    whose price is the first numeric metadata value among [price],
    [entry_price], [close], [breakout_price] (in that order), or else the
    bar's close. *)
Theorem sell_price_resolution :
  forall tc fr d st sg st',
    assoc_mem String.eqb (symbol sg) (positions st) = true ->
    sell_fill tc fr d st sg = inr st' ->
    exists tr,
      trades_log st' = trades_log st ++ [tr] /\ t_action tr = ASELL /\
      inr (t_price tr) =
        match first_numeric ["price"; "entry_price"; "close"; "breakout_price"]
                            (metadata sg) with
        | Some q => inr q
        | None => get_close fr d (symbol sg)
        end.
Proof.
  intros tc fr d st sg st' Hmem H. unfold assoc_mem in Hmem. unfold sell_fill in H.
  destruct (assoc_get String.eqb (symbol sg) (positions st)) as [pos|]; [|discriminate].
  unfold signal_price, signal_price_keys in H.
  destruct (first_numeric ["price"; "entry_price"; "close"; "breakout_price"] (metadata sg))
    as [q|] eqn:Hq.
  - simpl in H. inversion H; subst. eexists. split; [reflexivity|]. split; reflexivity.
  - destruct (get_close fr d (symbol sg)) as [e|q]; simpl in H; [discriminate|].
    inversion H; subst. eexists. split; [reflexivity|]. split; reflexivity.
Qed.

(** C4: a run that does not raise returns an equity curve with one entry
    per bar of the series, dated by the sorted series index; for a series
    whose dates are strictly increasing (the PriceSeries invariant) these
    are the series' dates in their order. *)
Theorem equity_curve_dates :
  forall eng pd strat sz cap sym r,
    run eng pd strat sz cap sym = inr r ->
    List.length (equity_curve r) = List.length (rows pd) /\
    map fst (equity_curve r) = index (sort_index pd) /\
    (Sorted Z.lt (index pd) -> map fst (equity_curve r) = index pd).
Proof.
  intros eng pd strat sz cap sym r H. unfold run in H.
  destruct (prepare pd strat sz cap sym) as [e|su] eqn:Hp; simpl in H; [discriminate|].
  pose proof (prepare_frame _ _ _ _ _ _ Hp) as Hf.
  destruct (simulate _ _ _ _ _) as [e|st]; simpl in H; [discriminate|].
  destruct (Nat.eqb (List.length (equity_values st)) (List.length (index (s_frame su))))
    eqn:Hl; simpl in H; [|discriminate].
  apply Nat.eqb_eq in Hl. inversion H; subst r; simpl. clear H.
  assert (Hm : map fst (combine (index (s_frame su)) (equity_values st)) = index (s_frame su))
    by (apply map_fst_combine; lia).
  assert (Hidx : index (s_frame su) = index (sort_index pd)) by now rewrite Hf.
  split; [|split].
  - rewrite <- (length_map fst), Hm, Hidx. unfold index. simpl.
    rewrite length_map. apply sort_by_length.
  - now rewrite Hm.
  - intros Hs. rewrite Hm, Hidx. unfold index, sort_index. simpl.
    rewrite sort_by_sorted; [reflexivity|].
    apply (Sorted_weaken (fun a b => fst a < fst b)); [intros; lia|].
    now apply Sorted_map_iff in Hs.
Qed.

(** C8 (counterexample): an empty series with capital 0 raises the
    empty-series error, not the capital error. *)
Lemma empty_series_precedes_capital :
  run (mkEngine 0) empty_data buy_sell_strategy (half_sizer data) 0 "TEST"
    = inl (ValueError "Price data cannot be empty") /\
  run (mkEngine 0) empty_data buy_sell_strategy (half_sizer data) 0 "TEST"
    <> inl (ValueError "initial_capital must be positive").
Proof. split; [reflexivity|]. vm_compute. discriminate. Qed.

(** C8 (amended): construction raises exactly for a negative
    transaction_cost and otherwise stores it unchanged; [run] raises
    ValueError("Price data cannot be empty") on an empty series (no rows or
    no columns, as [DataFrame.empty]) and, on a non-empty one, ValueError("initial_capital must be positive") when
    initial_capital <= 0, whatever the strategy and sizer. *)
Theorem engine_input_errors :
  (forall tc, (exists e, make_engine tc = inl e) <-> (tc < 0)%Q) /\
  (forall tc eng, make_engine tc = inr eng -> transaction_cost eng = tc) /\
  (forall eng pd strat sz cap sym,
     frame_empty pd = true ->
     run eng pd strat sz cap sym = inl (ValueError "Price data cannot be empty")) /\
  (forall eng pd strat sz cap sym,
     frame_empty pd = false -> (cap <= 0)%Q ->
     run eng pd strat sz cap sym = inl (ValueError "initial_capital must be positive")).
Proof.
  split; [|split; [|split]].
  - intros tc. unfold make_engine, Qltb. destruct (Qle_bool 0 tc) eqn:E; simpl.
    + apply Qle_bool_iff in E. split; [intros [e He]; discriminate|intros; lra].
    + split; [intros _|intros; eauto].
      destruct (Qlt_le_dec tc 0) as [Hl|Hl]; [exact Hl|].
      apply Qle_bool_iff in Hl. congruence.
  - intros tc eng. unfold make_engine, Qltb. destruct (negb _); [discriminate|].
    intros H; inversion H; reflexivity.
  - intros eng pd strat sz cap sym H. unfold run, prepare. now rewrite H.
  - intros eng pd strat sz cap sym Hne Hc. unfold run, prepare.
    rewrite Hne. apply Qle_bool_iff in Hc. now rewrite Hc.
Qed.

Lemma buy_fill_ok tc d st e :
  (0 <= tc)%Q -> (0 < e_price e)%Q -> state_ok st -> state_ok (buy_fill tc d st e).
Proof.
  intros Htc Hp [Hc [Hpos Hent]]. unfold buy_fill.
  destruct (e_shares e <=? 0) eqn:E1; [split; auto|].
  set (mx := Qfloor (cash st / (e_price e * (1 + tc)))).
  destruct (mx <=? 0) eqn:E2; [split; auto|].
  set (sh := if e_shares e >? mx then mx else e_shares e).
  assert (Hsh : (0 < sh <= mx)%Z).
  { unfold sh. apply Z.leb_gt in E1, E2. destruct (e_shares e >? mx) eqn:E3; [lia|].
    rewrite Z.gtb_ltb in E3. apply Z.ltb_ge in E3. lia. }
  assert (Hx : (0 < e_price e * (1 + tc))%Q) by nra.
  pose proof (floor_shares_within (cash st) (e_price e * (1 + tc)) Hx) as Hfl. fold mx in Hfl.
  assert (Hle : (inject_Z sh <= inject_Z mx)%Q) by (rewrite <- Zle_Qle; lia).
  assert (Hm : (inject_Z sh * (e_price e * (1 + tc)) <= inject_Z mx * (e_price e * (1 + tc)))%Q)
    by (apply Qmult_le_compat_r; lra).
  split; [|split; [|exact Hent]].
  - simpl. intros Hsn. unfold sell_fills_nonneg in Hsn. apply Forall_app in Hsn as [Hsn _].
    specialize (Hc Hsn). lra.
  - simpl. apply (Forall_assoc_set String.eqb (fun p => 0 <= p_shares p)); [exact Hpos|simpl; lia].
Qed.

Lemma fold_buy_ok tc d todays st :
  (0 <= tc)%Q -> Forall (fun e => (0 < e_price e)%Q) todays -> state_ok st ->
  state_ok (fold_left (buy_fill tc d) todays st).
Proof.
  intros Htc Ht; revert st; induction Ht as [|e r He Hr IH]; intros st Hst; simpl; auto.
  apply IH. now apply buy_fill_ok.
Qed.

Lemma sell_fill_ok tc fr d st sg st' :
  (0 <= tc <= 1)%Q ->
  state_ok st -> sell_fill tc fr d st sg = inr st' -> state_ok st'.
Proof.
  intros Htc [Hc [Hpos Hent]] H. unfold sell_fill in H.
  destruct (assoc_get String.eqb (symbol sg) (positions st)) as [pos|] eqn:Ep.
  - apply bind_inr in H as [price [Hs H]]. inversion H; subst st'. clear H.
    pose proof (assoc_get_Forall String.eqb (fun p => 0 <= p_shares p) _ _ _ Hpos Ep) as Hsh.
    simpl in Hsh.
    split; [|split; [|exact Hent]].
    + simpl. intros Hsn. unfold sell_fills_nonneg in Hsn.
      apply Forall_app in Hsn as [Hsn Hl]. specialize (Hc Hsn).
      inversion Hl as [|? ? Hp0 _]; subst. specialize (Hp0 eq_refl). simpl in Hp0.
      assert (H0 : (0 <= inject_Z (p_shares pos) * price)%Q).
      { apply Qmult_le_0_compat; [rewrite <- (Zle_Qle 0); lia|exact Hp0]. }
      nra.
    + simpl. now apply (Forall_assoc_remove String.eqb (fun p => 0 <= p_shares p)).
  - inversion H; subst. split; auto.
Qed.

Lemma sell_fills_ok tc fr d sgs :
  (0 <= tc <= 1)%Q ->
  forall st st', state_ok st -> sell_fills tc fr d st sgs = inr st' -> state_ok st'.
Proof.
  intros Htc; induction sgs as [|sg r IH]; intros st st' Hst H; simpl in H.
  - inversion H; subst; auto.
  - apply bind_inr in H as [st1 [H1 H2]].
    apply (IH st1); auto.
    apply (sell_fill_ok tc fr d st sg); auto.
Qed.

(** The state a day starts its fills from. *)
Lemma day_start_ok st d :
  state_ok st ->
  state_ok (mkState (cash st) (positions st) (trades_log st) (equity_values st)
                    (assoc_remove Z.eqb d (entries_by_date st))) /\
  Forall (fun e => (0 < e_price e)%Q)
    match assoc_get Z.eqb d (entries_by_date st) with Some l => l | None => [] end.
Proof.
  intros [Hc [Hpos Hent]]. split.
  - split; [exact Hc|]. split; [exact Hpos|]. simpl.
    now apply (Forall_assoc_remove Z.eqb (Forall (fun e => (0 < e_price e)%Q))).
  - destruct (assoc_get Z.eqb d (entries_by_date st)) eqn:E; [|constructor].
    exact (assoc_get_Forall Z.eqb (Forall (fun e => (0 < e_price e)%Q)) _ _ _ Hent E).
Qed.

Lemma step_day_ok tc fr sells st d st' :
  (0 <= tc <= 1)%Q ->
  state_ok st -> step_day tc fr sells st d = inr st' -> state_ok st'.
Proof.
  intros Htc Hst H. unfold step_day in H.
  apply bind_inr in H as [st2 [H2 H]]. apply bind_inr in H as [eq [_ H]].
  inversion H; subst st'. clear H.
  destruct (day_start_ok st d Hst) as [Hst0 Htod].
  pose proof (fold_buy_ok tc d _ _ (proj1 Htc) Htod Hst0) as Hst1.
  assert (Hst2 : state_ok st2).
  { eapply (sell_fills_ok tc fr d); [exact Htc|exact Hst1|exact H2]. }
  destruct Hst2 as [? [? ?]]. split; [|split]; assumption.
Qed.

Lemma simulate_ok tc fr sells :
  (0 <= tc <= 1)%Q ->
  forall dates st st', state_ok st -> simulate tc fr sells dates st = inr st' -> state_ok st'.
Proof.
  intros Htc; induction dates as [|d ds IH]; intros st st' Hst H; simpl in H.
  - inversion H; subst; auto.
  - apply bind_inr in H as [st1 [H1 H2]].
    apply (IH st1); auto. eapply step_day_ok; eauto.
Qed.

Lemma prepare_entries_pos allocs :
  forall buys fr fb es,
    prepare_entries allocs buys fr fb = inr es -> Forall (fun e => (0 < e_price e)%Q) es.
Proof.
  induction allocs as [|a rest IH]; intros buys fr fb es H; cbn [prepare_entries] in H.
  - inversion H; constructor.
  - destruct (assoc_get String.eqb _ buys) as [[|sg sgs]|]; [eauto| |eauto].
    destruct (align_date (date sg) (index fr)) as [d|]; [|eauto].
    apply bind_inr in H as [price [_ H]].
    destruct (Qle_bool price 0) eqn:Hp; [eauto|].
    match type of H with context [if ?c then _ else _] => destruct c end; [eauto|].
    apply bind_inr in H as [rest' [Hr H]]. inversion H; subst es.
    constructor; [|eauto]. simpl.
    destruct (Qlt_le_dec 0 price) as [h|h]; [exact h|].
    apply Qle_bool_iff in h. congruence.
Qed.

Lemma prepare_ok pd strat sz cap sym su :
  prepare pd strat sz cap sym = inr su -> state_ok (initial_state cap su).
Proof.
  unfold prepare. destruct (frame_empty pd); [discriminate|].
  destruct (Qle_bool cap 0) eqn:Hc; [discriminate|].
  intros H. apply bind_inr in H as [signals [_ H]].
  apply bind_inr in H as [pend [Hpe H]]. inversion H; subst su. clear H.
  split; [|split].
  - simpl. intros _. destruct (Qlt_le_dec 0 cap) as [h|h]; [lra|].
    apply Qle_bool_iff in h. congruence.
  - constructor.
  - simpl. pose proof (prepare_entries_pos _ _ _ _ _ Hpe) as Hf. clear Hpe.
    assert (G : forall acc, Forall (fun kv => Forall (fun e => (0 < e_price e)%Q) (snd kv)) acc ->
              Forall (fun kv => Forall (fun e => (0 < e_price e)%Q) (snd kv))
                (fold_left (fun acc e => append_at Z.eqb (e_date e) e acc) pend acc)).
    { induction Hf as [|e r He Hr IHf]; intros acc Hacc; simpl; auto.
      apply IHf. now apply Forall_append_at. }
    apply G. constructor.
Qed.

(** C9 (counterexample): transaction_cost 2 is accepted by the
    constructor, and a round trip (BUY at day 1, SELL at day 2, closes at
    100, capital 600) ends with cash -200: the SELL's fees exceed its
    proceeds. *)
Lemma cash_negative_with_cost_above_one :
  make_engine 2 = inr (mkEngine 2) /\
  exists su st,
    prepare flat_data buy_sell_strategy (half_sizer flat_data) 600 "TEST" = inr su /\
    simulate 2 (s_frame su) (s_sells su) (index (s_frame su)) (initial_state 600 su) = inr st /\
    (cash st == -200)%Q.
Proof.
  split; [reflexivity|]. do 2 eexists.
  split; [vm_compute; reflexivity|]. split; [vm_compute; reflexivity|].
  vm_compute. reflexivity.
Qed.

(** C9 (amended): with 0 <= transaction_cost <= 1, cash is never
    negative while every SELL filled so far had a non-negative price: after
    the first n days of the loop, and, on the next day, before and after
    each BUY fill and each SELL signal processed (each BUY fill is capped at
    floor(cash / (price * (1 + transaction_cost))) shares and dropped when
    that is 0; each SELL adds shares * price * (1 - transaction_cost)). *)
Theorem cash_nonnegative :
  forall pd strat sz cap sym tc su n st,
    (0 <= tc <= 1)%Q ->
    prepare pd strat sz cap sym = inr su ->
    simulate tc (s_frame su) (s_sells su) (firstn n (index (s_frame su)))
             (initial_state cap su) = inr st ->
    (sell_fills_nonneg (trades_log st) -> 0 <= cash st)%Q /\
    forall d, nth_error (index (s_frame su)) n = Some d ->
      let st0 := mkState (cash st) (positions st) (trades_log st) (equity_values st)
                         (assoc_remove Z.eqb d (entries_by_date st)) in
      let todays := match assoc_get Z.eqb d (entries_by_date st) with
                    | Some l => l | None => [] end in
      let sgs := match assoc_get Z.eqb d (s_sells su) with Some l => l | None => [] end in
      (forall k, sell_fills_nonneg (trades_log (fold_left (buy_fill tc d) (firstn k todays) st0)) ->
                 (0 <= cash (fold_left (buy_fill tc d) (firstn k todays) st0))%Q) /\
      (forall k stk,
         sell_fills tc (s_frame su) d (fold_left (buy_fill tc d) todays st0) (firstn k sgs)
           = inr stk ->
         sell_fills_nonneg (trades_log stk) -> (0 <= cash stk)%Q).
Proof.
  intros pd strat sz cap sym tc su n st Htc Hp H.
  pose proof (simulate_ok tc _ _ Htc _ _ _ (prepare_ok _ _ _ _ _ _ Hp) H) as Hst.
  split; [exact (proj1 Hst)|].
  intros d _ st0 todays sgs.
  destruct (day_start_ok st d Hst) as [Hst0 Htod]. fold st0 todays in Hst0, Htod.
  split.
  - intros k. apply (fold_buy_ok tc d _ _ (proj1 Htc)); [|exact Hst0].
    rewrite <- (firstn_skipn k todays) in Htod. now apply Forall_app in Htod as [Hk _].
  - intros k stk Hs.
    apply (sell_fills_ok tc (s_frame su) d (firstn k sgs) Htc
             (fold_left (buy_fill tc d) todays st0)); [|exact Hs].
    exact (fold_buy_ok tc d _ _ (proj1 Htc) Htod Hst0).
Qed.

Lemma sell_price_resolution_witness :
  exists st' tr,
    sell_fill 0 data 4 (mkState 0 [("TEST", mkPosition 5 102 1 "dummy" 0)] [] [] [])
              (sell_meta_signal "TEST") = inr st' /\
    trades_log st' = [tr] /\ t_action tr = ASELL /\ t_price tr = 20%Q.
Proof.
  destruct (sell_fill 0 data 4 (mkState 0 [("TEST", mkPosition 5 102 1 "dummy" 0)] [] [] [])
              (sell_meta_signal "TEST")) as [e|st'] eqn:E; [vm_compute in E; discriminate|].
  destruct (sell_price_resolution 0 data 4
              (mkState 0 [("TEST", mkPosition 5 102 1 "dummy" 0)] [] [] [])
              (sell_meta_signal "TEST") st' ltac:(reflexivity) E) as (tr & H1 & H2 & H3).
  exists st', tr. split; [reflexivity|]. split; [exact H1|]. split; [exact H2|].
  cbn in H3. injection H3 as H3. exact H3.
Defined.

Lemma equity_curve_dates_witness :
  exists r,
    run (mkEngine 0) data buy_sell_strategy (half_sizer data) 100000 "TEST" = inr r /\
    map fst (equity_curve r) = [0; 1; 2; 3; 4].
Proof.
  destruct (run (mkEngine 0) data buy_sell_strategy (half_sizer data) 100000 "TEST")
    as [e|r] eqn:E; [vm_compute in E; discriminate|].
  exists r. split; [reflexivity|].
  destruct (equity_curve_dates _ _ _ _ _ _ r E) as [_ [_ H]].
  apply H. vm_compute. repeat constructor.
Defined.

Lemma cash_nonnegative_witness :
  exists su st,
    prepare data buy_sell_strategy (half_sizer data) 100000 "TEST" = inr su /\
    simulate 0 (s_frame su) (s_sells su) (firstn 4 (index (s_frame su)))
             (initial_state 100000 su) = inr st /\
    (sell_fills_nonneg (trades_log st) -> 0 <= cash st)%Q /\
    nth_error (index (s_frame su)) 4 = Some 4 /\
    (forall k stk,
       sell_fills 0 (s_frame su) 4
         (fold_left (buy_fill 0 4) [] (mkState (cash st) (positions st) (trades_log st)
                                        (equity_values st) (assoc_remove Z.eqb 4 (entries_by_date st))))
         (firstn k match assoc_get Z.eqb 4 (s_sells su) with Some l => l | None => [] end)
         = inr stk ->
       sell_fills_nonneg (trades_log stk) -> (0 <= cash stk)%Q).
Proof.
  destruct (prepare data buy_sell_strategy (half_sizer data) 100000 "TEST") as [e|su] eqn:Ep;
    [vm_compute in Ep; discriminate|].
  destruct (simulate 0 (s_frame su) (s_sells su) (firstn 4 (index (s_frame su)))
              (initial_state 100000 su)) as [e|st] eqn:Es.
  { pose proof Ep as Ep'. vm_compute in Ep'. injection Ep' as <-.
    vm_compute in Es. discriminate. }
  assert (Hd : nth_error (index (s_frame su)) 4 = Some 4).
  { pose proof Ep as Ep'. vm_compute in Ep'. injection Ep' as <-. reflexivity. }
  assert (He : match assoc_get Z.eqb 4 (entries_by_date st) with
               | Some l => l | None => [] end = []).
  { pose proof Ep as Ep'. vm_compute in Ep'. injection Ep' as <-.
    vm_compute in Es. injection Es as <-. reflexivity. }
  destruct (cash_nonnegative data buy_sell_strategy (half_sizer data) 100000 "TEST" 0 su 4 st
              ltac:(split; lra) Ep Es) as [H1 H2].
  exists su, st. split; [reflexivity|]. split; [exact Es|]. split; [exact H1|].
  split; [exact Hd|].
  destruct (H2 4 Hd) as [_ H3]. cbv zeta in H3. rewrite He in H3. exact H3.
Defined.

End EngineFacts.

(** ** Strategy properties *)

Module StrategyFacts.
Import Strategies.

(** C6: CAN-SLIM with the default parameters (quarter weights) on a series
    whose latest bar has close 98, earnings_growth 0.30, relative_strength
    0.9, fifty_two_week_high 100 and volume_change 0.25: the components are
    0.25, 0.225, 13/60 (about 0.2167) and 0.25, their total 113/120 (about
    0.9417) is at least min_score 0.75, and exactly one BUY signal is
    emitted, dated at the latest bar, with that total as confidence. *)
Theorem canslim_worked_scenario :
  forall (pr : Frame) sym d row,
    missing_columns canslim_required pr = [] ->
    last_row (sort_index pr) = Some (d, row) ->
    row "close" = Some 98%Q ->
    row "earnings_growth" = Some (30 # 100)%Q ->
    row "relative_strength" = Some (9 # 10)%Q ->
    row "fifty_two_week_high" = Some 100%Q ->
    row "volume_change" = Some (25 # 100)%Q ->
    (exists comps,
        calculate_components canslim_default row = inr comps /\
        Forall2 Qeq (map snd comps) [1 # 4; 225 # 1000; 13 # 60; 1 # 4]%Q /\
        sum_scores comps == 113 # 120 /\ min_score canslim_default <= sum_scores comps)%Q /\
    (exists sg,
        canslim_generate canslim_default sym pr = inr [sg] /\
        signal_type sg = BUY /\ date sg = d /\ (confidence sg == 113 # 120)%Q).
Proof.
  intros pr sym d row Hm Hl Hc He Hr Hh Hv.
  assert (Hcomp : calculate_components canslim_default row =
    inr [("earnings_score", 1 # 4)%Q; ("relative_strength_score", (1 # 4) * Qmin 1 (9 # 10))%Q;
         ("price_near_high_score", (1 # 4) * (1 - (100 - 98) / 100 / (15 # 100)))%Q;
         ("volume_increase_score", (1 # 4) * Qmin 1 ((25 # 100) / (20 # 100)))%Q]).
  { unfold calculate_components. rewrite He, Hr, Hh, Hc, Hv. vm_compute. reflexivity. }
  split.
  - eexists. split; [exact Hcomp|].
    split; [repeat constructor; vm_compute; reflexivity|].
    split; vm_compute; [reflexivity|discriminate].
  - unfold canslim_generate.
    assert (Hne : rows pr <> []).
    { intros E. unfold last_row, sort_index in Hl. simpl in Hl. rewrite E in Hl.
      discriminate. }
    rewrite (frame_empty_false pr canslim_required Hne ltac:(discriminate) Hm).
    rewrite missing_columns_sort, Hm, Hl, Hcomp. simpl.
    eexists. split; [reflexivity|]. split; [reflexivity|]. split; [reflexivity|].
    vm_compute. reflexivity.
Qed.

(** C7 (counterexample): an empty series with no columns at all lacks
    every required column of trend following, yet yields the empty list
    rather than a missing-column error. *)
Lemma empty_series_missing_columns_no_error :
  missing_columns trend_required (mkFrame [] []) = ["close"; "high"; "low"] /\
  trend_generate (fun _ _ _ => []) trend_default "X" (mkFrame [] []) = inr [].
Proof. split; reflexivity. Qed.

(** C7 (amended): for each of the four strategies and every detection
    loop, an empty series (no rows or no columns, as [DataFrame.empty])
    yields []; a non-empty series lacking required
    columns fails naming exactly the absent ones (in the order of
    required_columns); a non-empty series with all columns that is shorter
    than the minimum lookback (for Dan Zanger, counted after dropping rows
    with missing close or volume) yields []. *)
Theorem strategy_guards :
  forall tdet ldet zdet (pt : TrendFollowingParams) (pl : LivermoreParams)
         (pz : DanZangerParams) (pc : CanSlimParams) sym (pr : Frame),
    (frame_empty pr = true ->
       trend_generate tdet pt sym pr = inr [] /\ livermore_generate ldet pl sym pr = inr [] /\
       dan_zanger_generate zdet pz sym pr = inr [] /\ canslim_generate pc sym pr = inr []) /\
    (frame_empty pr = false ->
       (missing_columns trend_required pr <> [] ->
          trend_generate tdet pt sym pr =
            inl (MissingColumns "trend following strategy" (missing_columns trend_required pr))) /\
       (missing_columns livermore_required pr <> [] ->
          livermore_generate ldet pl sym pr =
            inl (MissingColumns "Livermore strategy" (missing_columns livermore_required pr))) /\
       (missing_columns dan_zanger_required pr <> [] ->
          dan_zanger_generate zdet pz sym pr =
            inl (MissingColumns "Dan Zanger strategy" (missing_columns dan_zanger_required pr))) /\
       (missing_columns canslim_required pr <> [] ->
          canslim_generate pc sym pr =
            inl (MissingColumns "CAN SLIM strategy" (missing_columns canslim_required pr)))) /\
    (frame_empty pr = false ->
       (missing_columns trend_required pr = [] ->
          nrows pr < Z.max (tf_min_bars pt) (slow_span pt + atr_period pt) ->
          trend_generate tdet pt sym pr = inr []) /\
       (missing_columns livermore_required pr = [] ->
          nrows pr < Z.max (lv_min_bars pl) (consolidation_window pl + 5) ->
          livermore_generate ldet pl sym pr = inr []) /\
       (missing_columns dan_zanger_required pr = [] ->
          nrows (dropna dan_zanger_required (sort_index pr)) < cup_lookback pz ->
          dan_zanger_generate zdet pz sym pr = inr [])).
Proof.
  intros tdet ldet zdet pt pl pz pc sym pr.
  assert (Hn : nrows (sort_index pr) = nrows pr).
  { unfold nrows, sort_index. simpl. now rewrite sort_by_length. }
  unfold trend_generate, livermore_generate, dan_zanger_generate, canslim_generate.
  rewrite !missing_columns_sort, Hn.
  split; [|split].
  - intros E. rewrite E. repeat split.
  - intros Hne. rewrite Hne.
    repeat split; intros Hm;
      match goal with |- context [missing_columns ?r pr] =>
        destruct (missing_columns r pr) eqn:E; [congruence | reflexivity] end.
  - intros Hne. rewrite Hne.
    repeat split; intros Hm Hs; rewrite Hm; try rewrite Hn;
      now rewrite (proj2 (Z.ltb_lt _ _) Hs).
Qed.

Lemma canslim_worked_scenario_witness :
  exists sg,
    canslim_generate canslim_default "TEST" Scenario.canslim_data = inr [sg] /\
    signal_type sg = BUY /\ date sg = 0 /\ (confidence sg == 113 # 120)%Q.
Proof.
  destruct (canslim_worked_scenario Scenario.canslim_data "TEST" 0 Scenario.canslim_row
              ltac:(reflexivity) ltac:(reflexivity) ltac:(reflexivity) ltac:(reflexivity)
              ltac:(reflexivity) ltac:(reflexivity) ltac:(reflexivity))
    as [_ (sg & H1 & H2 & H3 & H4)].
  exists sg. auto.
Defined.

End StrategyFacts.

(** ** Aggregator properties *)

Module AggregationFacts.
Import Aggregation.

Lemma fold_min_le (r : list StrategySignal) (m : Q) :
  (fold_left (fun m s' => Qmin m (confidence s')) r m <= m)%Q /\
  (forall s, In s r -> fold_left (fun m s' => Qmin m (confidence s')) r m <= confidence s)%Q.
Proof.
  revert m; induction r as [|s' r IH]; intros m; simpl.
  - split; [apply Qle_refl|tauto].
  - destruct (IH (Qmin m (confidence s'))) as [H1 H2].
    split.
    + eapply Qle_trans; [exact H1|apply Q.le_min_l].
    + intros s [<-|Hin]; [|auto]. eapply Qle_trans; [exact H1|apply Q.le_min_r].
Qed.

Lemma fold_max_ge (r : list StrategySignal) (m : Q) :
  (m <= fold_left (fun m s' => Qmax m (confidence s')) r m)%Q /\
  (forall s, In s r -> confidence s <= fold_left (fun m s' => Qmax m (confidence s')) r m)%Q.
Proof.
  revert m; induction r as [|s' r IH]; intros m; simpl.
  - split; [apply Qle_refl|tauto].
  - destruct (IH (Qmax m (confidence s'))) as [H1 H2].
    split.
    + eapply Qle_trans; [apply Q.le_max_l|exact H1].
    + intros s [<-|Hin]; [|auto]. eapply Qle_trans; [apply Q.le_max_r|exact H1].
Qed.

Lemma conf_min_le (l : list StrategySignal) s :
  In s l -> (conf_min l <= confidence s)%Q.
Proof.
  destruct l as [|s0 r]; [contradiction|]. simpl. intros [<-|Hin].
  - apply (proj1 (fold_min_le _ _)).
  - now apply (proj2 (fold_min_le _ _)).
Qed.

Lemma conf_max_ge (l : list StrategySignal) s :
  In s l -> (confidence s <= conf_max l)%Q.
Proof.
  destruct l as [|s0 r]; [contradiction|]. simpl. intros [<-|Hin].
  - apply (proj1 (fold_max_ge _ _)).
  - now apply (proj2 (fold_max_ge _ _)).
Qed.

Lemma weighted_lower (p : AggregationParams) (lo : Q) (l : list StrategySignal) :
  forall aw ac,
    (forall s, In s l -> 0 <= weight p s /\ lo <= confidence s)%Q ->
    (lo * aw <= ac)%Q ->
    (lo * fold_left (fun acc s => acc + weight p s) l aw <=
     fold_left (fun acc s => acc + weight p s * confidence s) l ac)%Q.
Proof.
  induction l as [|s r IH]; intros aw ac Hl H; simpl; [exact H|].
  apply IH; [intros s' Hs'; apply Hl; now right|].
  destruct (Hl s (or_introl eq_refl)) as [Hw Hc]. nra.
Qed.

Lemma weighted_upper (p : AggregationParams) (hi : Q) (l : list StrategySignal) :
  forall aw ac,
    (forall s, In s l -> 0 <= weight p s /\ confidence s <= hi)%Q ->
    (ac <= hi * aw)%Q ->
    (fold_left (fun acc s => acc + weight p s * confidence s) l ac <=
     hi * fold_left (fun acc s => acc + weight p s) l aw)%Q.
Proof.
  induction l as [|s r IH]; intros aw ac Hl H; simpl; [exact H|].
  apply IH; [intros s' Hs'; apply Hl; now right|].
  destruct (Hl s (or_introl eq_refl)) as [Hw Hc]. nra.
Qed.

(** The aggregated confidence lies between any common lower and upper
    bound of the contributing confidences. *)
Lemma combine_between (p : AggregationParams) sym t l sg lo hi :
  (forall s, In s l -> 0 <= weight p s)%Q ->
  (0 < total_weight p l)%Q ->
  combine_signals p sym t l = Some sg ->
  (forall s, In s l -> lo <= confidence s <= hi)%Q ->
  (lo <= confidence sg <= hi)%Q.
Proof.
  intros Hw Ht H Hb. unfold combine_signals in H.
  destruct (Qeq_bool (total_weight p l) 0); [discriminate|].
  destruct (Qltb _ _); [discriminate|]. inversion H; subst sg; simpl. clear H.
  unfold total_weight, weighted_confidence in *. split.
  - apply Qle_shift_div_l; [exact Ht|].
    apply weighted_lower; [intros s Hs; split; [apply Hw|apply Hb]; auto | lra].
  - apply Qle_shift_div_r; [exact Ht|].
    apply weighted_upper; [intros s Hs; split; [apply Hw|apply Hb]; auto | lra].
Qed.

(** C10: when every looked-up weight of a group is non-negative and their
    total is positive, the emitted confidence lies between the least and
    the greatest contributing confidence, hence in [0,1] when all of them
    are. *)
Theorem combined_confidence_bounds :
  forall p sym t l sg,
    (forall s, In s l -> 0 <= weight p s)%Q ->
    (0 < total_weight p l)%Q ->
    combine_signals p sym t l = Some sg ->
    (conf_min l <= confidence sg <= conf_max l)%Q /\
    ((forall s, In s l -> 0 <= confidence s <= 1) -> 0 <= confidence sg <= 1)%Q.
Proof.
  intros p sym t l sg Hw Ht H. split.
  - apply (combine_between p sym t l); auto.
    intros s Hs. split; [now apply conf_min_le | now apply conf_max_ge].
  - intros Hb. apply (combine_between p sym t l); auto.
Qed.

Lemma grouped_get_step sym t g s :
  grouped_get sym t
    (assoc_set String.eqb (symbol s)
       (append_at SignalType_eqb (signal_type s) s
          match assoc_get String.eqb (symbol s) g with Some m => m | None => [] end) g) =
  grouped_get sym t g ++
  (if String.eqb (symbol s) sym && SignalType_eqb (signal_type s) t then [s] else []).
Proof.
  unfold grouped_get. rewrite (assoc_get_set_eq String.eqb String.eqb_eq).
  rewrite (String.eqb_sym (symbol s) sym).
  destruct (String.eqb sym (symbol s)) eqn:E; simpl.
  - apply String.eqb_eq in E; subst sym.
    rewrite (assoc_getd_append_at SignalType_eqb SignalType_eqb_iff).
    rewrite (eqb_sym_b SignalType_eqb SignalType_eqb_iff t).
    destruct (assoc_get String.eqb (symbol s) g); reflexivity.
  - rewrite app_nil_r; reflexivity.
Qed.

Lemma grouped_get_fold sym t l : forall g,
  grouped_get sym t (fold_left (fun g s =>
               let inner := match assoc_get String.eqb (symbol s) g with
                            | Some m => m | None => [] end in
               assoc_set String.eqb (symbol s)
                 (append_at SignalType_eqb (signal_type s) s inner) g) l g) = grouped_get sym t g ++ group_of sym t l.
Proof.
  induction l as [|s r IH]; intros g; simpl; [now rewrite app_nil_r|].
  rewrite IH, grouped_get_step, <- app_assoc. unfold group_of; simpl.
  destruct (String.eqb (symbol s) sym && SignalType_eqb (signal_type s) t); reflexivity.
Qed.

Lemma group_signals_get sym t signals :
  grouped_get sym t (group_signals signals) = group_of sym t signals.
Proof. unfold group_signals. now rewrite grouped_get_fold. Qed.

Lemma group_fold_nodup l : forall g,
  NoDup (map fst g) -> Forall (fun kv => NoDup (map fst (snd kv))) g ->
  NoDup (map fst (fold_left (fun g s =>
               let inner := match assoc_get String.eqb (symbol s) g with
                            | Some m => m | None => [] end in
               assoc_set String.eqb (symbol s)
                 (append_at SignalType_eqb (signal_type s) s inner) g) l g)) /\
  Forall (fun kv => NoDup (map fst (snd kv))) (fold_left (fun g s =>
               let inner := match assoc_get String.eqb (symbol s) g with
                            | Some m => m | None => [] end in
               assoc_set String.eqb (symbol s)
                 (append_at SignalType_eqb (signal_type s) s inner) g) l g).
Proof.
  induction l as [|s r IH]; intros g Hk Hv; simpl; auto.
  apply IH.
  - now apply (NoDup_assoc_set String.eqb String.eqb_eq).
  - apply (Forall_assoc_set String.eqb (fun tm => NoDup (map fst tm))); auto.
    apply (NoDup_append_at SignalType_eqb SignalType_eqb_iff).
    destruct (assoc_get String.eqb (symbol s) g) eqn:E; [|constructor].
    exact (assoc_get_Forall String.eqb (fun tm => NoDup (map fst tm)) _ _ _ Hv E).
Qed.

Lemma group_signals_nodup signals :
  NoDup (map fst (group_signals signals)) /\
  Forall (fun kv => NoDup (map fst (snd kv))) (group_signals signals).
Proof. unfold group_signals. apply group_fold_nodup; constructor. Qed.

Lemma combine_signals_some p sym t l sg :
  combine_signals p sym t l = Some sg -> symbol sg = sym /\ signal_type sg = t.
Proof.
  unfold combine_signals. destruct (Qeq_bool _ _); [discriminate|].
  destruct (Qltb _ _); [discriminate|]. intros H; inversion H; auto.
Qed.

Lemma filter_combine p sym t sym' (x : SignalType * list StrategySignal) :
  filter (fun s => String.eqb (symbol s) sym && SignalType_eqb (signal_type s) t)
    (let '(t', l) := x in option_list (combine_signals p sym' t' l)) =
  if String.eqb sym' sym then
    (if SignalType_eqb (fst x) t then option_list (combine_signals p sym t (snd x)) else [])
  else [].
Proof.
  destruct x as [t' l]; simpl.
  destruct (combine_signals p sym' t' l) as [sg|] eqn:C.
  - pose proof (combine_signals_some _ _ _ _ _ C) as [Hs Ht]. simpl. rewrite Hs, Ht. clear Hs Ht.
    destruct (String.eqb sym' sym) eqn:E1; simpl; [|reflexivity].
    apply String.eqb_eq in E1; subst sym'.
    destruct (SignalType_eqb t' t) eqn:E2; [|reflexivity].
    apply SignalType_eqb_iff in E2; subst t'. now rewrite C.
  - destruct (String.eqb sym' sym) eqn:E1; [|reflexivity].
    destruct (SignalType_eqb t' t) eqn:E2; [|reflexivity].
    apply String.eqb_eq in E1; apply SignalType_eqb_iff in E2; subst. now rewrite C.
Qed.

(** The part of [aggregate]'s output carrying one symbol and signal type
    is what [_combine_signals] returns for that group. *)
Lemma aggregate_filter p signals sym t :
  filter (fun s => String.eqb (symbol s) sym && SignalType_eqb (signal_type s) t)
    (aggregate p signals) =
  option_list (combine_signals p sym t (group_of sym t signals)).
Proof.
  rewrite <- group_signals_get. destruct (group_signals_nodup signals) as [Hk Hv].
  unfold aggregate, grouped_get. rewrite filter_flat_map.
  induction (group_signals signals) as [|[sym' tm] r IH]; simpl; [reflexivity|].
  inversion Hk; inversion Hv; subst. rewrite filter_flat_map.
  rewrite (flat_map_ext _ (fun x => if String.eqb sym' sym then
             (if SignalType_eqb (fst x) t then option_list (combine_signals p sym t (snd x))
              else []) else [])) by apply filter_combine.
  rewrite (String.eqb_sym sym sym').
  destruct (String.eqb sym' sym) eqn:E.
  - apply String.eqb_eq in E; subst sym'. simpl in *.
    rewrite (flat_map_select SignalType_eqb SignalType_eqb_iff
               (fun l => option_list (combine_signals p sym t l))) by assumption.
    rewrite IH by assumption.
    rewrite (assoc_get_notin String.eqb String.eqb_eq) by assumption. rewrite app_nil_r.
    unfold assoc_getd. destruct (assoc_get SignalType_eqb t tm) as [l|]; [reflexivity|].
    simpl. (* the empty group *)
    unfold combine_signals, total_weight. simpl. reflexivity.
  - simpl. rewrite IH by assumption.
    now rewrite flat_map_nil.
Qed.

Lemma metadata_fold_inner k (md : Metadata) : forall acc,
  Forall (fun kv => snd kv <> []) acc ->
  Forall (fun kv => snd kv <> []) (fold_left (fun acc' kv => append_at String.eqb (fst kv) (snd kv) acc') md acc) /\
  assoc_getd String.eqb k (fold_left (fun acc' kv => append_at String.eqb (fst kv) (snd kv) acc') md acc) =
  assoc_getd String.eqb k acc ++ map snd (filter (fun kv => String.eqb (fst kv) k) md).
Proof.
  induction md as [|[k0 v0] r IH]; intros acc Ha; simpl; [now rewrite app_nil_r|].
  destruct (IH (append_at String.eqb k0 v0 acc)) as [H1 H2];
    [now apply (nonempty_append_at String.eqb)|].
  split; [exact H1|]. rewrite H2, (assoc_getd_append_at String.eqb String.eqb_eq).
  rewrite (String.eqb_sym k k0). destruct (String.eqb k0 k); simpl;
    now rewrite <- app_assoc.
Qed.

Lemma metadata_fold k l : forall acc,
  Forall (fun kv => snd kv <> []) acc ->
  Forall (fun kv => snd kv <> []) (fold_left (fun acc s =>
               fold_left (fun acc' kv => append_at String.eqb (fst kv) (snd kv) acc')
                         (metadata s) acc) l acc) /\
  assoc_getd String.eqb k (fold_left (fun acc s =>
               fold_left (fun acc' kv => append_at String.eqb (fst kv) (snd kv) acc')
                         (metadata s) acc) l acc) = assoc_getd String.eqb k acc ++ values_of k l.
Proof.
  induction l as [|s r IH]; intros acc Ha; simpl; [now rewrite app_nil_r|].
  destruct (metadata_fold_inner k (metadata s) acc Ha) as [H1 H2].
  destruct (IH _ H1) as [H3 H4]. split; [exact H3|].
  now rewrite H4, H2, app_assoc.
Qed.

Lemma combine_metadata_get k l :
  assoc_get String.eqb k (combine_metadata l) =
  match values_of k l with [] => None | vs => Some vs end.
Proof.
  unfold combine_metadata. destruct (metadata_fold k l [] (Forall_nil _)) as [H1 H2].
  rewrite (assoc_get_getd String.eqb _ _ H1), H2. reflexivity.
Qed.

Lemma assoc_get_map_list k (m : list (string * list mval)) :
  assoc_get String.eqb k (map (fun kv => (fst kv, MList (snd kv))) m) =
  option_map MList (assoc_get String.eqb k m).
Proof.
  induction m as [|[k0 v0] r IH]; simpl; auto. now destruct (String.eqb k k0).
Qed.

Lemma fold_max_date (r : list StrategySignal) : forall m,
  m <= fold_left (fun m s' => Z.max m (date s')) r m /\
  (forall s, In s r -> date s <= fold_left (fun m s' => Z.max m (date s')) r m) /\
  (fold_left (fun m s' => Z.max m (date s')) r m = m \/
   In (fold_left (fun m s' => Z.max m (date s')) r m) (map date r)).
Proof.
  induction r as [|s' r IH]; intros m; simpl; [split; [lia|]; split; [tauto|auto]|].
  destruct (IH (Z.max m (date s'))) as [H1 [H2 H3]]. split; [lia|]. split.
  - intros s [<-|Hs]; [lia|auto].
  - destruct H3 as [H3|H3]; [|auto]. rewrite H3.
    destruct (Z.max_spec m (date s')) as [[_ E]|[_ E]]; rewrite E; auto.
Qed.

Lemma max_date_spec (g : list StrategySignal) :
  g <> [] -> In (max_date g) (map date g) /\ (forall s, In s g -> date s <= max_date g).
Proof.
  destruct g as [|s r]; [congruence|intros _]. unfold max_date.
  destruct (fold_max_date r (date s)) as [H1 [H2 H3]]. split.
  - destruct H3 as [H3|H3]; [left; auto|right; auto].
  - intros s0 [<-|Hs]; auto.
Qed.

(** C5 (counterexample): a contributing signal whose metadata has the key
    [strategies] does not get its value into the aggregated metadata: the
    key is overwritten with the list of strategy names. *)
Lemma strategies_metadata_key_overwritten :
  exists sg,
    aggregate default_params [mkSignal "AAA" 0 "canslim" BUY 1 [("strategies", MStr "x")]] = [sg] /\
    values_of "strategies" [mkSignal "AAA" 0 "canslim" BUY 1 [("strategies", MStr "x")]] =
      [MStr "x"] /\
    assoc_get String.eqb "strategies" (metadata sg) = Some (MList [MStr "canslim"]).
Proof.
  eexists. split; [reflexivity|]. split; reflexivity.
Qed.

(** C5 (amended): for every (symbol, signal_type) group g of the input
    (the signals with that symbol and type, in input order), the output of
    [aggregate] for that symbol and type is empty when the total weight is
    zero or the weighted average confidence is below min_confidence; and
    otherwise it is exactly one signal, whose confidence is that weighted
    average, whose date is the greatest date of g, whose metadata maps every
    key other than [strategies] and [confidence_values] to the list of the
    values of that key in g in order (absent when there are none), and maps
    [strategies] and [confidence_values] to the contributing strategy names
    and confidences in order. *)
Theorem aggregate_group_spec :
  forall p signals sym t,
    group_of sym t signals <> [] ->
    let g := group_of sym t signals in
    let out := filter (fun s => String.eqb (symbol s) sym && SignalType_eqb (signal_type s) t)
                      (aggregate p signals) in
    ((total_weight p g == 0 \/
      weighted_confidence p g / total_weight p g < min_confidence p)%Q -> out = []) /\
    (~ (total_weight p g == 0)%Q ->
     ~ (weighted_confidence p g / total_weight p g < min_confidence p)%Q ->
     exists sg, out = [sg] /\
       symbol sg = sym /\ signal_type sg = t /\ strategy sg = "aggregated" /\
       (confidence sg == weighted_confidence p g / total_weight p g)%Q /\
       In (date sg) (map date g) /\ (forall s, In s g -> date s <= date sg) /\
       (forall k, k <> "strategies" -> k <> "confidence_values" ->
          assoc_get String.eqb k (metadata sg) =
          match values_of k g with [] => None | vs => Some (MList vs) end) /\
       assoc_get String.eqb "strategies" (metadata sg) =
         Some (MList (map (fun s => MStr (strategy s)) g)) /\
       assoc_get String.eqb "confidence_values" (metadata sg) =
         Some (MList (map (fun s => MNum (confidence s)) g))).
Proof.
  intros p signals sym t Hne g out. subst g out.
  rewrite aggregate_filter. unfold combine_signals. split.
  - intros H. destruct (Qeq_bool _ 0) eqn:E; [reflexivity|].
    destruct H as [H|H]; [apply Qeq_bool_iff in H; congruence|].
    unfold Qltb. destruct (Qle_bool (min_confidence p) _) eqn:F; [|reflexivity].
    apply Qle_bool_iff in F. exfalso; apply (Qlt_not_le _ _ H F).
  - intros H1 H2. destruct (Qeq_bool _ 0) eqn:E;
      [apply Qeq_bool_iff in E; contradiction|].
    unfold Qltb. destruct (Qle_bool (min_confidence p) _) eqn:F;
      [|rewrite (proj2 (Qle_bool_iff _ _) (Qnot_lt_le _ _ H2)) in F; discriminate].
    simpl. eexists; split; [reflexivity|]. simpl.
    destruct (max_date_spec _ Hne) as [Hd1 Hd2].
    split; [reflexivity|]. split; [reflexivity|]. split; [reflexivity|].
    split; [apply Qeq_refl|]. split; [exact Hd1|]. split; [exact Hd2|].
    repeat rewrite (assoc_get_set_eq String.eqb String.eqb_eq).
    split; [|split; reflexivity].
    intros k Hk1 Hk2.
    destruct (String.eqb k "confidence_values") eqn:C1; [apply String.eqb_eq in C1; contradiction|].
    destruct (String.eqb k "strategies") eqn:C2; [apply String.eqb_eq in C2; contradiction|].
    rewrite !(assoc_get_set_eq String.eqb String.eqb_eq), C1, C2.
    rewrite assoc_get_map_list, combine_metadata_get.
    destruct (values_of k _); reflexivity.
Qed.

Lemma combined_confidence_bounds_witness :
  exists sg,
    combine_signals default_params "AAA" BUY
      [mkSignal "AAA" 3 "canslim" BUY (8 # 10) []; mkSignal "AAA" 5 "trend" BUY (6 # 10) []]
      = Some sg /\
    (6 # 10 <= confidence sg <= 8 # 10)%Q.
Proof.
  destruct (combine_signals default_params "AAA" BUY
      [mkSignal "AAA" 3 "canslim" BUY (8 # 10) []; mkSignal "AAA" 5 "trend" BUY (6 # 10) []])
    as [sg|] eqn:E; [|vm_compute in E; discriminate].
  exists sg. split; [reflexivity|].
  destruct (combined_confidence_bounds default_params "AAA" BUY
              [mkSignal "AAA" 3 "canslim" BUY (8 # 10) []; mkSignal "AAA" 5 "trend" BUY (6 # 10) []]
              sg
              ltac:(intros s0 _; unfold weight; simpl; lra)
              ltac:(vm_compute; reflexivity) E) as [H _].
  exact H.
Defined.

Lemma aggregate_group_spec_witness :
  exists sg,
    filter (fun s => String.eqb (symbol s) "AAA" && SignalType_eqb (signal_type s) BUY)
      (aggregate default_params [mkSignal "AAA" 3 "canslim" BUY (8 # 10) [("price", MNum 10)];
          mkSignal "AAA" 5 "trend" BUY (6 # 10) [("price", MNum 12)];
          mkSignal "BBB" 4 "trend" BUY (9 # 10) []]) = [sg] /\
    (confidence sg == 7 # 10)%Q /\ date sg = 5 /\
    assoc_get String.eqb "price" (metadata sg) = Some (MList [MNum 10; MNum 12]).
Proof.
  destruct (aggregate_group_spec default_params [mkSignal "AAA" 3 "canslim" BUY (8 # 10) [("price", MNum 10)];
          mkSignal "AAA" 5 "trend" BUY (6 # 10) [("price", MNum 12)];
          mkSignal "BBB" 4 "trend" BUY (9 # 10) []] "AAA" BUY
              ltac:(intros E; vm_compute in E; discriminate)) as [_ H].
  destruct (H ltac:(intros E; vm_compute in E; discriminate)
              ltac:(intros E; vm_compute in E; discriminate))
    as (sg & Hout & _ & _ & _ & Hc & Hd1 & Hd2 & Hm & _).
  exists sg. split; [exact Hout|]. split.
  - apply (Qeq_trans _ _ _ Hc). vm_compute. reflexivity.
  - split.
    + simpl in Hd1, Hd2. destruct Hd1 as [Hd1|[Hd1|[]]]; [|lia].
      specialize (Hd2 _ (or_intror (or_introl eq_refl))). simpl in Hd2. lia.
    + rewrite (Hm "price") by discriminate. reflexivity.
Defined.

End AggregationFacts.

(** ** Position sizer properties *)

Module SizerFacts.
Import Sizer.

Lemma assoc_get_in {K V : Type} (eqb : K -> K -> bool) (k : K) (m : list (K * V)) v :
  assoc_get eqb k m = Some v -> exists k', In (k', v) m.
Proof.
  induction m as [|[k' v'] r IH]; simpl; [discriminate|].
  destruct (eqb k k'); [intros H; inversion H; subst; eauto|].
  intros H; destruct (IH H) as [k'' Hin]; eauto.
Qed.

Lemma assoc_get_set_string (k k' : string) (v : Q) (m : list (string * Q)) :
  assoc_get String.eqb k (assoc_set String.eqb k' v m) =
  if String.eqb k k' then Some v else assoc_get String.eqb k m.
Proof.
  induction m as [|[k0 v0] r IH]; simpl.
  - destruct (String.eqb k k'); reflexivity.
  - destruct (String.eqb k' k0) eqn:E1.
    + apply String.eqb_eq in E1; subst k0. simpl. destruct (String.eqb k k'); reflexivity.
    + simpl. rewrite IH. destruct (String.eqb k k0) eqn:E2; auto.
      apply String.eqb_eq in E2; subst k0.
      destruct (String.eqb k k') eqn:E3; auto.
      apply String.eqb_eq in E3; subst k'. rewrite String.eqb_refl in E1. discriminate.
Qed.

Lemma current_alloc_set (sec sec0 : string) (x : Q) (sa : list (string * Q)) :
  current_alloc (assoc_set String.eqb sec0 x sa) sec =
  if String.eqb sec sec0 then x else current_alloc sa sec.
Proof.
  unfold current_alloc. rewrite assoc_get_set_string. now destruct (String.eqb sec sec0).
Qed.

Lemma sector_total_app (sec : string) (l : list PositionAllocation) a :
  (sector_total sec (l ++ [a]) ==
   sector_total sec l + (if String.eqb (sector a) sec then allocation a else 0))%Q.
Proof.
  induction l as [|b r IH]; simpl.
  - destruct (String.eqb (sector a) sec); lra.
  - destruct (String.eqb (sector b) sec); rewrite IH; lra.
Qed.

Lemma sector_limit_nonneg (cfg : RiskManagementConfig) sec :
  (forall k v, In (k, v) (sector_limits cfg) -> 0 <= v)%Q ->
  (0 <= get_sector_limit cfg sec)%Q.
Proof.
  intros H. unfold get_sector_limit.
  destruct (assoc_get String.eqb sec (sector_limits cfg)) eqn:E1.
  - destruct (assoc_get_in _ _ _ _ E1) as [k Hk]. eapply H; eauto.
  - destruct (assoc_get String.eqb "other" (sector_limits cfg)) eqn:E2.
    + destruct (assoc_get_in _ _ _ _ E2) as [k Hk]. eapply H; eauto.
    + lra.
Qed.

Section LoopInvariant.
Variables (cfg : RiskManagementConfig) (E : Q) (max_pos : Z) (base : Q)
          (smap : list (string * string)).

Lemma size_loop_cap :
  forall sigs allocs sa tp,
    loop_inv cfg E allocs sa ->
    forall sec, (sector_total sec (size_loop cfg E max_pos base smap sigs allocs sa tp)
                 <= E * get_sector_limit cfg sec)%Q.
Proof.
  induction sigs as [|s rest IH]; intros allocs sa tp Hinv sec; cbn [size_loop].
  - destruct (Hinv sec) as [H1 H2]. rewrite H1. exact H2.
  - destruct (tp >=? max_pos).
    + destruct (Hinv sec) as [H1 H2]. rewrite H1. exact H2.
    + destruct (extract_price s) as [price|]; [|now apply IH].
      destruct (Qle_bool price 0) eqn:Hp; [now apply IH|].
      set (sec0 := lower _).
      set (rem := (E * get_sector_limit cfg sec0 - current_alloc sa sec0)%Q).
      destruct (Qle_bool rem 0) eqn:Hr; [now apply IH|].
      set (sh := Qfloor (Qmin base rem / price)).
      destruct (sh <=? 0); [now apply IH|].
      apply IH. clear IH. intros sec'.
      assert (Hpos : (0 < price)%Q).
      { destruct (Qlt_le_dec 0 price) as [h|h]; [exact h|].
        apply Qle_bool_iff in h. congruence. }
      pose proof (floor_shares_within (Qmin base rem) price Hpos) as Hv.
      fold sh in Hv.
      pose proof (Q.le_min_r base rem) as Hm.
      assert (Hkey : (current_alloc sa sec0 + inject_Z sh * price
                      <= E * get_sector_limit cfg sec0)%Q) by (unfold sh, rem in *; lra).
      rewrite current_alloc_set, sector_total_app. simpl.
      destruct (Hinv sec') as [H1 H2].
      destruct (String.eqb sec0 sec') eqn:Es.
      * apply String.eqb_eq in Es. subst sec'.
        rewrite String.eqb_refl. rewrite H1. split; [lra|exact Hkey].
      * assert (Es' : String.eqb sec' sec0 = false)
          by (rewrite String.eqb_sym; exact Es).
        rewrite Es'. split; [rewrite H1; lra|exact H2].
Qed.
End LoopInvariant.

(** C3: for positive account equity (and sector limits that are
    non-negative fractions, as the risk configuration requires), the
    allocations that size_positions assigns to any sector total at most
    account_equity times that sector's limit, the limit being
    sector_limits[sector], else sector_limits["other"], else 1.0. *)
Theorem sector_cap_respected :
  forall cfg signals account_equity sector_map sec,
    (0 < account_equity)%Q ->
    (forall k v, In (k, v) (sector_limits cfg) -> 0 <= v)%Q ->
    (sector_total sec (size_positions cfg signals account_equity sector_map)
       <= account_equity * get_sector_limit cfg sec)%Q.
Proof.
  intros cfg signals E smap sec HE Hl. unfold size_positions.
  destruct (Qle_bool E 0) eqn:HE'.
  - apply Qle_bool_iff in HE'. lra.
  - apply size_loop_cap. intros sec'. simpl.
    assert (H0 : (current_alloc (map (fun kv => (fst kv, 0%Q)) (sector_limits cfg)) sec' == 0)%Q).
    { unfold current_alloc. clear Hl.
      induction (sector_limits cfg) as [|[k v] r IH]; simpl; [lra|].
      destruct (String.eqb sec' k); [lra|exact IH]. }
    rewrite H0. split; [lra|].
    pose proof (sector_limit_nonneg cfg sec' Hl). nra.
Qed.

Lemma sector_cap_respected_witness :
  (sector_total "tech"
     (size_positions (mkRisk 2 (1 # 10) (1 # 10) [("tech", 3 # 10); ("other", 1)])
        [mkSignal "AAA" 0 "canslim" BUY (9 # 10) [("price", MNum 100)];
         mkSignal "BBB" 0 "canslim" BUY (8 # 10) [("price", MNum 100)]]
        100000 [("AAA", "Tech"); ("BBB", "Tech")]) == 30000)%Q /\
  (sector_total "tech"
     (size_positions (mkRisk 2 (1 # 10) (1 # 10) [("tech", 3 # 10); ("other", 1)])
        [mkSignal "AAA" 0 "canslim" BUY (9 # 10) [("price", MNum 100)];
         mkSignal "BBB" 0 "canslim" BUY (8 # 10) [("price", MNum 100)]]
        100000 [("AAA", "Tech"); ("BBB", "Tech")])
   <= 100000 * get_sector_limit (mkRisk 2 (1 # 10) (1 # 10) [("tech", 3 # 10); ("other", 1)])
                 "tech")%Q.
Proof.
  split; [vm_compute; reflexivity|].
  apply sector_cap_respected; [lra|].
  intros k v H. destruct H as [H|[H|[]]]; injection H as <- <-; lra.
Defined.

End SizerFacts.

(* ================================================================== *)
(** * Further properties of the modelled code *)

(** ** More general lemmas *)

Lemma list_min_le_init (m : Q) (l : list Q) : (list_min m l <= m)%Q.
Proof.
  revert m; induction l as [|x r IH]; simpl; intros m; [apply Qle_refl|].
  apply Qle_trans with (Qmin m x); [apply IH|apply Q.le_min_l].
Qed.

Lemma list_min_le_in (m y : Q) (l : list Q) : In y l -> (list_min m l <= y)%Q.
Proof.
  revert m; induction l as [|x r IH]; simpl; intros m H; [contradiction|].
  destruct H as [H|H]; [rewrite <- H|now apply IH].
  apply Qle_trans with (Qmin m x); [apply list_min_le_init|apply Q.le_min_r].
Qed.

Lemma StronglySorted_app_last {A : Type} (R : A -> A -> Prop) (l : list A) (x : A) :
  StronglySorted R l -> Forall (fun y => R y x) l -> StronglySorted R (l ++ [x]).
Proof.
  induction l as [|y r IH]; simpl; intros Hs Hf.
  - repeat constructor.
  - inversion Hs; inversion Hf; subst. constructor; auto.
    apply Forall_app; split; auto.
Qed.

Lemma Qle_bool_refl (q : Q) : Qle_bool q q = true.
Proof. apply Qle_bool_iff, Qle_refl. Qed.

(** ** Drawdown events and alerts *)

Module DrawdownFacts.
Import Drawdown Alerts.

(** What one iteration of the loop does to the event list. *)
Lemma dd_step_events th s d v :
  events (dd_step th s (d, v)) = events s \/
  (events (dd_step th s (d, v)) =
     events s ++ [mkDrawdownEvent (l_peak_date s) d (l_peak_value s) v
                                  (1 - v / l_peak_value s)%Q] /\
   Qle_bool th (1 - v / l_peak_value s)%Q = true /\ in_drawdown s = false /\
   Qle_bool (l_peak_value s) v = false).
Proof.
  unfold dd_step. destruct (Qle_bool (l_peak_value s) v) eqn:E1; [now left|].
  destruct (Qltb v (l_trough_value s)); [|destruct (Qle_bool (l_peak_value s) v); now left].
  destruct (Qle_bool th (1 - v / l_peak_value s) && negb (in_drawdown s)) eqn:E3;
    simpl; rewrite E1; simpl; [|now left].
  apply andb_prop in E3 as [E3 E4]. apply negb_true_iff in E4. right; auto.
Qed.

(** What one iteration does to the peak. *)
Lemma dd_step_peak th s d v :
  l_peak_value (dd_step th s (d, v)) =
  if Qle_bool (l_peak_value s) v then v else l_peak_value s.
Proof.
  unfold dd_step. destruct (Qle_bool (l_peak_value s) v) eqn:E1; [reflexivity|].
  destruct (Qltb v (l_trough_value s));
    [destruct (Qle_bool th (1 - v / l_peak_value s) && negb (in_drawdown s))|];
    simpl; rewrite E1; reflexivity.
Qed.

(** The first iteration only restates the initial peak. *)
Lemma dd_step_first th d v :
  dd_step th (mkDDLoop d v d v false []) (d, v) = mkDDLoop d v d v false [].
Proof. unfold dd_step; simpl. now rewrite Qle_bool_refl. Qed.

Lemma dd_fold_ok th cs : forall s,
  Forall (event_ok th) (events s) ->
  Forall (event_ok th) (events (fold_left (dd_step th) cs s)).
Proof.
  induction cs as [|[d v] r IH]; cbn [fold_left]; intros s Hs; auto.
  apply IH. destruct (dd_step_events th s d v) as [E|(E & E1 & _ & E2)]; rewrite E; auto.
  apply Forall_app; split; auto. constructor; auto.
  unfold event_ok; simpl; repeat split.
  - now apply Qle_bool_iff.
  - apply Qnot_le_lt. intros H. apply Qle_bool_iff in H. congruence.
Qed.

Lemma detect_ok curve th :
  Forall (event_ok th) (detect_drawdown_events curve th).
Proof.
  unfold detect_drawdown_events.
  destruct (fst (calculate_drawdowns (map snd curve))); [constructor|].
  destruct curve as [|[d0 v0] r]; [constructor|]. apply dd_fold_ok. constructor.
Qed.

Lemma dd_chain_step th lastd s d v :
  lastd < d -> dd_chain lastd s -> dd_chain d (dd_step th s (d, v)).
Proof.
  intros Hd (Hs & Hf & Hin & Hp).
  unfold dd_step. destruct (Qle_bool (l_peak_value s) v) eqn:E1.
  - apply Qle_bool_iff in E1. unfold dd_chain; simpl. repeat split; auto; try lia.
    + eapply Forall_impl; [|exact Hf]. simpl. intros e (H1 & H2 & H3).
      repeat split; try lia. eapply Qle_trans; eauto.
    + intros _. eapply Forall_impl; [|exact Hf]. simpl. intros e (_ & H2 & _). lia.
  - destruct (Qltb v (l_trough_value s)).
    + destruct (Qle_bool th (1 - v / l_peak_value s) && negb (in_drawdown s)) eqn:E3;
        simpl; rewrite E1; unfold dd_chain; simpl.
      * apply andb_prop in E3 as [_ E4]. apply negb_true_iff in E4.
        specialize (Hin E4).
        repeat split.
        -- apply StronglySorted_app_last; auto.
           apply Forall_forall. intros e He.
           rewrite Forall_forall in Hin, Hf.
           split; [now apply Hin|]. now apply Hf.
        -- apply Forall_app; split.
           ++ eapply Forall_impl; [|exact Hf]. simpl. intros e (H1 & H2 & H3).
              repeat split; auto; lia.
           ++ constructor; [|constructor]. simpl. repeat split; try lia. apply Qle_refl.
        -- discriminate.
        -- lia.
      * repeat split; auto; try lia.
        eapply Forall_impl; [|exact Hf]. simpl. intros e (H1 & H2 & H3).
        repeat split; auto; lia.
    + rewrite E1. unfold dd_chain. repeat split; auto; try lia.
      eapply Forall_impl; [|exact Hf]. simpl. intros e (H1 & H2 & H3).
      repeat split; auto; lia.
Qed.

Lemma dd_chain_fold th cs : forall lastd s,
  Sorted Z.lt (map fst cs) -> HdRel Z.lt lastd (map fst cs) ->
  dd_chain lastd s -> exists l, dd_chain l (fold_left (dd_step th) cs s).
Proof.
  induction cs as [|[d v] r IH]; cbn [fold_left map fst]; intros lastd s Hs Hh Hc; [eauto|].
  inversion Hs; inversion Hh; subst.
  apply (IH d); auto. now apply dd_chain_step with lastd.
Qed.

(** Relating the loop to the drawdown series: the peak is the running
    maximum, and every event is the negated drawdown of one bar. *)
Lemma dd_fold_pct th cs : forall s m,
  (l_peak_value s == m)%Q -> (0 < m)%Q ->
  forall e, In e (events (fold_left (dd_step th) cs s)) ->
  In e (events s) \/
  ((0 < drawdown_pct e)%Q /\
   exists dd, In dd (map (fun '(v, m) => ((v - m) / m)%Q)
                         (combine (map snd cs) (cummax_from m (map snd cs)))) /\
              (drawdown_pct e == - dd)%Q).
Proof.
  induction cs as [|[d v] r IH]; cbn [fold_left map combine cummax_from snd];
    intros s m Hm Hpos e He; [now left|].
  assert (Hpk : (l_peak_value (dd_step th s (d, v)) == Qmax m v)%Q).
  { rewrite dd_step_peak. destruct (Qle_bool (l_peak_value s) v) eqn:E.
    - apply Qle_bool_iff in E. rewrite Q.max_r; [reflexivity|]. rewrite <- Hm; auto.
    - assert (v < m)%Q.
      { rewrite <- Hm. apply Qnot_le_lt. intros H. apply Qle_bool_iff in H. congruence. }
      rewrite Q.max_l; [auto|]. now apply Qlt_le_weak. }
  assert (Hpos' : (0 < Qmax m v)%Q).
  { apply Qlt_le_trans with m; auto. apply Q.le_max_l. }
  destruct (IH _ _ Hpk Hpos' e He) as [Hin|(Hp & dd & Hdd & Heq)].
  - destruct (dd_step_events th s d v) as [E|(E & _ & _ & E2)]; rewrite E in Hin; [now left|].
    apply in_app_or in Hin as [Hin|[Hin|[]]]; [now left|]. right. subst e. simpl.
    assert (Hv : (v < m)%Q).
    { rewrite <- Hm. apply Qnot_le_lt. intros H. apply Qle_bool_iff in H. congruence. }
    assert (Hmax : (Qmax m v == m)%Q) by (apply Q.max_l; now apply Qlt_le_weak).
    assert (Hm0 : ~ (m == 0)%Q) by (intros H; rewrite H in Hpos; discriminate).
    split.
    + rewrite Hm. apply Qlt_minus_iff. setoid_replace (1 - v / m + - 0)%Q
        with ((m - v) / m)%Q by (field; auto).
      apply Qlt_shift_div_l; auto. lra.
    + exists ((v - Qmax m v) / Qmax m v)%Q. split; [now left|].
      rewrite Hmax, Hm. field; auto.
  - right. split; auto. exists dd. split; auto. now right.
Qed.

(** X1: every event [detect_drawdown_events] reports reached the
    threshold: its [drawdown_pct] is at least [threshold], it is
    [1 - trough_value / peak_value], and its trough lies below its peak. *)
Theorem drawdown_events_reach_threshold (curve : list (Z * Q)) (threshold : Q) :
  Forall (fun e => (threshold <= drawdown_pct e)%Q /\
                   drawdown_pct e = (1 - trough_value e / peak_value e)%Q /\
                   (trough_value e < peak_value e)%Q)
         (detect_drawdown_events curve threshold).
Proof. apply detect_ok. Qed.

(** X2: on a curve whose dates increase, the events are disjoint
    episodes in time order: each event's peak date comes before its trough
    date, and every later event starts (at its peak date) after the trough
    of every earlier one, from a peak at least as high. *)
Theorem drawdown_events_disjoint (curve : list (Z * Q)) (threshold : Q) :
  Sorted Z.lt (map fst curve) ->
  Forall (fun e => peak_date e < trough_date e) (detect_drawdown_events curve threshold) /\
  StronglySorted (fun e1 e2 => trough_date e1 < peak_date e2 /\
                               (peak_value e1 <= peak_value e2)%Q)
                 (detect_drawdown_events curve threshold).
Proof.
  intros Hs. unfold detect_drawdown_events.
  destruct (fst (calculate_drawdowns (map snd curve))); [split; constructor|].
  destruct curve as [|[d0 v0] r]; [split; constructor|]. simpl in Hs |- *.
  unfold dd_step at 2. simpl. rewrite Qle_bool_refl. simpl.
  inversion Hs; subst.
  destruct (dd_chain_fold threshold r d0 (mkDDLoop d0 v0 d0 v0 false [])) as [lst (C1 & C2 & _)];
    auto.
  - unfold dd_chain; simpl; repeat split; auto; try constructor; lia.
  - split; auto. eapply Forall_impl; [|exact C2]. simpl. tauto.
Qed.

(** X3: on a positive curve every event's [drawdown_pct] is positive and
    at most the [max_drawdown] that [calculate_drawdowns] reports for the
    same curve; so a threshold above that maximum gives no event. *)
Theorem drawdown_events_within_max (curve : list (Z * Q)) (threshold : Q) :
  Forall (fun dv => (0 < snd dv)%Q) curve ->
  Forall (fun e => (0 < drawdown_pct e)%Q /\
                   (drawdown_pct e <= snd (calculate_drawdowns (map snd curve)))%Q)
         (detect_drawdown_events curve threshold) /\
  ((snd (calculate_drawdowns (map snd curve)) < threshold)%Q ->
   detect_drawdown_events curve threshold = []).
Proof.
  intros Hpos.
  assert (Hb : Forall (fun e => (0 < drawdown_pct e)%Q /\
                   (drawdown_pct e <= snd (calculate_drawdowns (map snd curve)))%Q)
                 (detect_drawdown_events curve threshold)).
  { unfold detect_drawdown_events.
    destruct (fst (calculate_drawdowns (map snd curve))); [constructor|].
    destruct curve as [|[d0 v0] r]; [constructor|].
    inversion Hpos as [|? ? Hv0 _]; subst. simpl in Hv0.
    apply Forall_forall. intros e He. cbn [fold_left] in He. rewrite dd_step_first in He.
    destruct (dd_fold_pct threshold r (mkDDLoop d0 v0 d0 v0 false []) v0 (Qeq_refl _) Hv0
                e He) as [[]|(Hp & dd & Hdd & Heq)].
    split; auto.
    change (snd (calculate_drawdowns (map snd ((d0, v0) :: r)))) with
      (Qabs (list_min ((v0 - v0) / v0)%Q
               (map (fun '(v, m) => ((v - m) / m)%Q)
                    (combine (map snd r) (cummax_from v0 (map snd r)))))).
    set (lm := list_min _ _).
    assert (H1 : (lm <= dd)%Q) by now apply list_min_le_in.
    rewrite Heq. apply Qle_trans with (- lm)%Q; [lra|].
    rewrite <- Qabs_opp. apply Qle_Qabs. }
  split; auto. intros Hlt.
  destruct (detect_drawdown_events curve threshold) as [|e r] eqn:E; auto.
  pose proof (detect_ok curve threshold) as Hok. rewrite E in Hok.
  inversion Hok as [|? ? (H1 & _) _]; inversion Hb as [|? ? (_ & H2) _]; subst. lra.
Qed.

Lemma alert_fold cfg evs : forall acc prev,
  exists nw,
    fst (fold_left (alert_step cfg) evs (acc, prev)) = acc ++ nw /\
    spaced (min_interval_days cfg) prev (map trough_date nw) /\
    snd (fold_left (alert_step cfg) evs (acc, prev)) =
      match rev nw with [] => prev | a :: _ => Some (trough_date a) end /\
    incl nw evs.
Proof.
  induction evs as [|e r IH]; simpl; intros acc prev.
  - exists []. rewrite app_nil_r. repeat split; auto. apply incl_refl.
  - destruct (should_alert cfg prev (trough_date e)) eqn:E.
    + destruct (IH (acc ++ [e]) (Some (trough_date e))) as (nw & H1 & H2 & H3 & H4).
      exists (e :: nw). rewrite H1, <- app_assoc. repeat split; auto.
      * destruct prev as [l|]; auto.
        simpl in E. now apply Z.leb_le in E.
      * rewrite H3. simpl. destruct (rev nw); reflexivity.
      * apply incl_cons; [now left|]. now apply incl_tl.
    + destruct (IH acc prev) as (nw & H1 & H2 & H3 & H4).
      exists nw. repeat split; auto. now apply incl_tl.
Qed.

(** X4: [process_equity_curve] reports only drawdown events of the curve,
    and the trough dates of the alerts it reports are [min_interval_days]
    apart from each other and from the manager's previous alert; the
    manager then remembers the trough date of its last alert (or keeps
    the previous one when nothing is reported), so the spacing also holds
    across successive calls. *)
Theorem alerts_throttled (cfg : DrawdownAlertConfig) (last : option Z) (curve : list (Z * Q)) :
  incl (fst (process_equity_curve cfg last curve))
       (detect_drawdown_events curve (threshold cfg)) /\
  spaced (min_interval_days cfg) last (map trough_date (fst (process_equity_curve cfg last curve))) /\
  snd (process_equity_curve cfg last curve) =
    match rev (fst (process_equity_curve cfg last curve)) with
    | [] => last
    | a :: _ => Some (trough_date a)
    end.
Proof.
  unfold process_equity_curve.
  destruct (alert_fold cfg (detect_drawdown_events curve (threshold cfg)) [] last)
    as (nw & H1 & H2 & H3 & H4).
  rewrite H1, H3. simpl. auto.
Qed.

Lemma drawdown_events_disjoint_witness :
  Sorted Z.lt (map fst [(0, 100%Q); (1, 80%Q); (2, 110%Q); (3, 70%Q)]) /\
  (Forall (fun e => peak_date e < trough_date e)
     (detect_drawdown_events [(0, 100%Q); (1, 80%Q); (2, 110%Q); (3, 70%Q)] (1 # 10)) /\
   StronglySorted (fun e1 e2 => trough_date e1 < peak_date e2 /\
                                (peak_value e1 <= peak_value e2)%Q)
     (detect_drawdown_events [(0, 100%Q); (1, 80%Q); (2, 110%Q); (3, 70%Q)] (1 # 10))).
Proof.
  assert (H : Sorted Z.lt (map fst [(0, 100%Q); (1, 80%Q); (2, 110%Q); (3, 70%Q)]))
    by (simpl; repeat constructor; lia).
  split; [exact H|].
  exact (drawdown_events_disjoint [(0, 100%Q); (1, 80%Q); (2, 110%Q); (3, 70%Q)] (1 # 10) H).
Defined.

Lemma drawdown_events_within_max_witness :
  Forall (fun dv => (0 < snd dv)%Q) [(0, 100%Q); (1, 80%Q); (2, 110%Q); (3, 70%Q)] /\
  (Forall (fun e => (0 < drawdown_pct e)%Q /\
                    (drawdown_pct e <= snd (calculate_drawdowns
                       (map snd [(0, 100%Q); (1, 80%Q); (2, 110%Q); (3, 70%Q)])))%Q)
     (detect_drawdown_events [(0, 100%Q); (1, 80%Q); (2, 110%Q); (3, 70%Q)] (1 # 10)) /\
   ((snd (calculate_drawdowns (map snd [(0, 100%Q); (1, 80%Q); (2, 110%Q); (3, 70%Q)]))
       < 1 # 10)%Q ->
    detect_drawdown_events [(0, 100%Q); (1, 80%Q); (2, 110%Q); (3, 70%Q)] (1 # 10) = [])).
Proof.
  assert (H : Forall (fun dv => (0 < snd dv)%Q)
                [(0, 100%Q); (1, 80%Q); (2, 110%Q); (3, 70%Q)])
    by (repeat constructor; simpl; lra).
  split; [exact H|].
  exact (drawdown_events_within_max [(0, 100%Q); (1, 80%Q); (2, 110%Q); (3, 70%Q)] (1 # 10) H).
Defined.

End DrawdownFacts.

(** ** Position sizing *)

Ltac split_if :=
  match goal with |- context [if ?c then _ else _] => let E := fresh "E" in destruct c eqn:E end.

Module SizerExtra.
Import Sizer.

Lemma HdRel_insert_desc (y x : StrategySignal) l :
  HdRel (fun a b => (confidence b <= confidence a)%Q) y l ->
  (confidence x <= confidence y)%Q ->
  HdRel (fun a b => (confidence b <= confidence a)%Q) y (insert_desc x l).
Proof.
  destruct l as [|z l]; simpl; intros H Hxy; [constructor; auto|].
  destruct (Qle_bool (confidence z) (confidence x)); constructor; auto.
  now inversion H.
Qed.

Lemma insert_desc_sorted x l :
  Sorted (fun a b => (confidence b <= confidence a)%Q) l ->
  Sorted (fun a b => (confidence b <= confidence a)%Q) (insert_desc x l).
Proof.
  induction l as [|y r IH]; simpl; intros H; [repeat constructor|].
  destruct (Qle_bool (confidence y) (confidence x)) eqn:E.
  - constructor; auto. constructor. now apply Qle_bool_iff.
  - inversion H; subst. constructor; auto. apply HdRel_insert_desc; auto.
    apply Qlt_le_weak, Qnot_le_lt. intros h. apply Qle_bool_iff in h. congruence.
Qed.

Lemma sort_desc_sorted l :
  StronglySorted (fun a b => (confidence b <= confidence a)%Q) (sort_desc l).
Proof.
  apply Sorted_StronglySorted.
  - intros a b c H1 H2. eapply Qle_trans; eauto.
  - induction l as [|x r IH]; simpl; [constructor|]. now apply insert_desc_sorted.
Qed.

Lemma insert_desc_perm x l : Permutation.Permutation (insert_desc x l) (x :: l).
Proof.
  induction l as [|y r IH]; simpl; [auto|].
  destruct (Qle_bool (confidence y) (confidence x)); [auto|].
  apply Permutation.perm_trans with (y :: x :: r); [now constructor|apply Permutation.perm_swap].
Qed.

Lemma sort_desc_in l s : In s (sort_desc l) <-> In s l.
Proof.
  assert (P : Permutation.Permutation (sort_desc l) l).
  { induction l as [|x r IH]; simpl; auto.
    eapply Permutation.perm_trans; [apply insert_desc_perm|auto]. }
  split; intros H; [eapply Permutation.Permutation_in; eauto|].
  eapply Permutation.Permutation_in; [apply Permutation.Permutation_sym; exact P|exact H].
Qed.

Lemma size_loop_ok cfg E max_pos base sm S sigs : forall allocs sa tp,
  incl sigs S -> Forall (alloc_ok cfg base sm S) allocs ->
  Z.of_nat (List.length allocs) = tp -> tp <= max_pos ->
  Forall (alloc_ok cfg base sm S) (size_loop cfg E max_pos base sm sigs allocs sa tp) /\
  Z.of_nat (List.length (size_loop cfg E max_pos base sm sigs allocs sa tp)) <= max_pos.
Proof.
  induction sigs as [|s r IH]; intros allocs sa tp Hinc Hf Hl Hm; cbn [size_loop];
    [split; auto; lia|].
  assert (Hr : incl r S) by (intros x Hx; apply Hinc; now right).
  split_if; [split; auto; lia|].
  destruct (extract_price s) as [price|] eqn:Ep; [|now apply IH].
  repeat (split_if; [now apply IH|]).
  apply IH; auto.
  - apply Forall_app; split; auto. constructor; [|constructor].
    assert (Hp : (0 < price)%Q).
    { apply Qnot_le_lt. intros h. apply Qle_bool_iff in h. congruence. }
    unfold alloc_ok; cbn [shares entry_price allocation stop_price sector pa_symbol
                          pa_confidence]. repeat split; auto.
    + lia.
    + eapply Qle_trans; [apply floor_shares_within; exact Hp|apply Q.le_min_l].
    + exists s. repeat split; auto. apply Hinc; now left.
  - rewrite length_app, Nat2Z.inj_add, Hl. simpl. lia.
  - match goal with H : (tp >=? max_pos) = false |- _ =>
      rewrite Z.geb_leb in H; apply Z.leb_gt in H end. lia.
Qed.

Lemma size_loop_sorted cfg E max_pos base sm sigs : forall allocs sa tp,
  StronglySorted (fun a b => (confidence b <= confidence a)%Q) sigs ->
  StronglySorted (fun a b => (pa_confidence b <= pa_confidence a)%Q) allocs ->
  Forall (fun a => Forall (fun s => (confidence s <= pa_confidence a)%Q) sigs) allocs ->
  StronglySorted (fun a b => (pa_confidence b <= pa_confidence a)%Q)
                 (size_loop cfg E max_pos base sm sigs allocs sa tp).
Proof.
  induction sigs as [|s r IH]; intros allocs sa tp Hs Ha Hf; cbn [size_loop]; auto.
  inversion Hs as [|? ? Hr Hsr]; subst.
  assert (Hf' : Forall (fun a => Forall (fun s => (confidence s <= pa_confidence a)%Q) r) allocs).
  { eapply Forall_impl; [|exact Hf]. intros a H. now inversion H. }
  split_if; auto.
  destruct (extract_price s) as [price|]; [|now apply IH].
  repeat (split_if; [now apply IH|]).
  apply IH; auto.
  - apply StronglySorted_app_last; auto.
    eapply Forall_impl; [|exact Hf]. intros a H. simpl. now inversion H.
  - apply Forall_app; split; [exact Hf'|constructor; [exact Hsr|constructor]].
Qed.

Lemma size_positions_ok cfg sigs E sm :
  Forall (alloc_ok cfg (E / inject_Z (Z.max 1 (max_positions cfg)))%Q sm
                   (filter (fun s => SignalType_eqb (signal_type s) BUY) sigs))
         (size_positions cfg sigs E sm) /\
  Z.of_nat (List.length (size_positions cfg sigs E sm)) <= Z.max 1 (max_positions cfg).
Proof.
  unfold size_positions. destruct (Qle_bool E 0); [split; [constructor|simpl; lia]|].
  apply size_loop_ok; auto; [|simpl; lia].
  intros x Hx. now apply sort_desc_in.
Qed.

Lemma total_allocation_le (b : Q) l :
  Forall (fun a => (allocation a <= b)%Q) l ->
  (total_allocation l <= inject_Z (Z.of_nat (List.length l)) * b)%Q.
Proof.
  unfold total_allocation.
  induction l as [|a r IH]; cbn [fold_right List.length]; intros H.
  - change (inject_Z (Z.of_nat 0)) with 0%Q. rewrite Qmult_0_l. apply Qle_refl.
  - inversion H; subst.
    rewrite Nat2Z.inj_succ, <- Z.add_1_r, inject_Z_plus.
    specialize (IH H3). rewrite Qmult_plus_distr_l, Qmult_1_l.
    set (X := (inject_Z (Z.of_nat (List.length r)) * b)%Q) in *. lra.
Qed.

(** X5: [size_positions] makes at most [max(1, max_positions)]
    allocations, and their allocations together never exceed the account
    equity (nothing is allocated when the equity is not positive). *)
Theorem size_positions_budget (cfg : RiskManagementConfig) (signals : list StrategySignal)
    (account_equity : Q) (sector_map : list (string * string)) :
  Z.of_nat (List.length (size_positions cfg signals account_equity sector_map))
    <= Z.max 1 (max_positions cfg) /\
  (total_allocation (size_positions cfg signals account_equity sector_map)
    <= Qmax 0 account_equity)%Q.
Proof.
  destruct (size_positions_ok cfg signals account_equity sector_map) as [Hf Hl].
  split; auto.
  destruct (Qle_bool account_equity 0) eqn:E.
  - unfold size_positions; rewrite E. simpl. apply Q.le_max_l.
  - assert (HE : (0 < account_equity)%Q).
    { apply Qnot_le_lt. intros h. apply Qle_bool_iff in h. congruence. }
    set (m := Z.max 1 (max_positions cfg)) in *.
    assert (Hm : (0 < inject_Z m)%Q)
      by (change 0%Q with (inject_Z 0); rewrite <- Zlt_Qlt; unfold m; lia).
    set (allocs := size_positions cfg signals account_equity sector_map) in *.
    apply Qle_trans with (inject_Z (Z.of_nat (List.length allocs)) * (account_equity / inject_Z m))%Q.
    + apply total_allocation_le. eapply Forall_impl; [|exact Hf].
      intros a (_ & _ & _ & H & _). exact H.
    + apply Qle_trans with (inject_Z m * (account_equity / inject_Z m))%Q.
      * apply Qmult_le_compat_r; [rewrite <- Zle_Qle; exact Hl|].
        apply Qle_shift_div_l; auto. lra.
      * rewrite Q.max_r by lra. apply Qle_lteq; right. field. intros h; rewrite h in Hm.
        discriminate.
Qed.

(** X6: every allocation [size_positions] returns comes from a BUY signal
    of the input with the same symbol and confidence and a positive price
    read by [_extract_price]; that price is its [entry_price], it holds at
    least one share, its [allocation] is [shares * entry_price] and at most
    [account_equity / max(1, max_positions)], its [stop_price] is
    [entry_price * (1 - individual_stop)], and its sector is the lowercased
    sector of the symbol ("other" when the map has none). *)
Theorem size_positions_allocations (cfg : RiskManagementConfig)
    (signals : list StrategySignal) (account_equity : Q) (sector_map : list (string * string)) :
  Forall (fun a =>
    0 < shares a /\ (0 < entry_price a)%Q /\
    allocation a = (inject_Z (shares a) * entry_price a)%Q /\
    (allocation a <= account_equity / inject_Z (Z.max 1 (max_positions cfg)))%Q /\
    stop_price a = (entry_price a * (1 - individual_stop cfg))%Q /\
    sector a = lower (match assoc_get String.eqb (pa_symbol a) sector_map with
                      | Some x => x | None => "other" end) /\
    exists s, In s signals /\ signal_type s = BUY /\ symbol s = pa_symbol a /\
              confidence s = pa_confidence a /\ extract_price s = Some (entry_price a))
    (size_positions cfg signals account_equity sector_map).
Proof.
  destruct (size_positions_ok cfg signals account_equity sector_map) as [Hf _].
  eapply Forall_impl; [|exact Hf].
  intros a (H1 & H2 & H3 & H4 & H5 & H6 & s & Hs & H7 & H8 & H9).
  repeat split; auto. apply filter_In in Hs as [Hs Ht].
  exists s. repeat split; auto. destruct (signal_type s); [reflexivity|discriminate].
Qed.

(** X7: the allocations come in non-increasing order of confidence. *)
Theorem size_positions_by_confidence (cfg : RiskManagementConfig)
    (signals : list StrategySignal) (account_equity : Q) (sector_map : list (string * string)) :
  StronglySorted (fun a b => (pa_confidence b <= pa_confidence a)%Q)
                 (size_positions cfg signals account_equity sector_map).
Proof.
  unfold size_positions. destruct (Qle_bool account_equity 0); [constructor|].
  apply size_loop_sorted; [apply sort_desc_sorted|constructor|constructor].
Qed.

End SizerExtra.

(** ** Backtesting engine *)

Module EngineExtra.
Import Engine.

Lemma HdRel_insert_by {A : Type} (key : A -> Z) (y x : A) l :
  HdRel (fun a b => key a <= key b) y l -> key y <= key x ->
  HdRel (fun a b => key a <= key b) y (insert_by key x l).
Proof.
  destruct l as [|z l]; simpl; intros H Hxy; [constructor; auto|].
  destruct (key x <=? key z); constructor; auto. now inversion H.
Qed.

Lemma insert_by_sorted {A : Type} (key : A -> Z) x l :
  Sorted (fun a b => key a <= key b) l -> Sorted (fun a b => key a <= key b) (insert_by key x l).
Proof.
  induction l as [|y r IH]; simpl; intros H; [repeat constructor|].
  destruct (key x <=? key y) eqn:E.
  - constructor; auto. constructor. now apply Z.leb_le.
  - inversion H; subst. constructor; auto. apply HdRel_insert_by; auto.
    apply Z.leb_gt in E. lia.
Qed.

Lemma sort_by_sorted_out {A : Type} (key : A -> Z) l :
  Sorted (fun a b => key a <= key b) (sort_by key l).
Proof. induction l as [|x r IH]; simpl; [constructor|]. now apply insert_by_sorted. Qed.

Lemma sort_by_perm {A : Type} (key : A -> Z) l : Permutation (sort_by key l) l.
Proof.
  induction l as [|x r IH]; simpl; auto.
  apply perm_trans with (x :: sort_by key r); [|now constructor].
  clear IH. induction (sort_by key r) as [|y ys IH2]; simpl; auto.
  destruct (key x <=? key y); auto.
  apply perm_trans with (y :: x :: ys); [now constructor|apply perm_swap].
Qed.

Lemma Z_sorted_b_sorted l : Z_sorted_b l = true -> Sorted Z.le l.
Proof.
  induction l as [|x r IH]; intros H; [constructor|].
  destruct r as [|y r']; [repeat constructor|].
  assert (H' : (x <=? y) && Z_sorted_b (y :: r') = true) by exact H.
  apply andb_prop in H' as [H1 H2]. constructor; [now apply IH|].
  constructor. now apply Z.leb_le.
Qed.

Lemma filter_below_nil (t x : Z) r :
  t <= x -> Forall (Z.le x) r -> filter (fun y => y <? t) r = [].
Proof.
  intros Hx; induction r as [|y r IH]; simpl; intros H; auto.
  inversion H; subst. replace (y <? t) with false by (symmetry; apply Z.ltb_ge; lia).
  auto.
Qed.

(** In a sorted list, the position counting the elements below [t] holds
    the first element at or above [t]. *)
Lemma nth_count_first (t : Z) l :
  StronglySorted Z.le l ->
  match nth_error l (List.length (filter (fun x => x <? t) l)) with
  | Some d => In d l /\ t <= d /\ (forall x, In x l -> t <= x -> d <= x)
  | None => forall x, In x l -> x < t
  end.
Proof.
  induction l as [|x r IH]; simpl; intros Hs; [intros y []|].
  inversion Hs as [|? ? Hr Hf]; subst. specialize (IH Hr).
  destruct (x <? t) eqn:E; simpl.
  - apply Z.ltb_lt in E.
    destruct (nth_error r _) as [d|]; [destruct IH as (H1 & H2 & H3)|].
    + repeat split; auto. intros y [<-|Hy] Hty; [lia|auto].
    + intros y [<-|Hy]; auto.
  - apply Z.ltb_ge in E. rewrite (filter_below_nil t x r E Hf). simpl.
    repeat split; auto. intros y [<-|Hy] _; [lia|].
    rewrite Forall_forall in Hf. now apply Hf.
Qed.

Lemma align_date_correct (target : Z) (idx : list Z) :
  match align_date target idx with
  | Some d => In d idx /\ target <= d /\ (forall x, In x idx -> target <= x -> d <= x)
  | None => forall x, In x idx -> x < target
  end.
Proof.
  unfold align_date. destruct idx as [|x0 r0]; [intros y []|].
  set (l := x0 :: r0).
  set (l' := if Z_sorted_b l then l else sort_by (fun x => x) l).
  assert (Hs : StronglySorted Z.le l').
  { apply Sorted_StronglySorted; [intros a b c; lia|]. unfold l'.
    destruct (Z_sorted_b l) eqn:E; [now apply Z_sorted_b_sorted|].
    exact (sort_by_sorted_out (fun x => x) l). }
  assert (Hin : forall y, In y l' <-> In y l).
  { intros y. unfold l'. destruct (Z_sorted_b l); [tauto|].
    split; apply Permutation_in; [|apply Permutation_sym]; apply sort_by_perm. }
  pose proof (nth_count_first target l' Hs) as H.
  destruct (nth_error l' _) as [d|].
  - destruct H as (H1 & H2 & H3). repeat split; auto; [now apply Hin|].
    intros y Hy. apply H3. now apply Hin.
  - intros y Hy. apply H. now apply Hin.
Qed.

(** X8: [_align_date] returns the first date of the index (in date
    order, whether or not the index was sorted) that is on or after the
    target, and [None] exactly when every date of the index is before the
    target (or the index is empty). *)
Theorem align_date_first_on_or_after (target : Z) (idx : list Z) :
  match align_date target idx with
  | Some d => In d idx /\ target <= d /\ (forall x, In x idx -> target <= x -> d <= x)
  | None => forall x, In x idx -> x < target
  end.
Proof. apply align_date_correct. Qed.

Lemma signals_by_date_fold sigs t idx d : forall acc,
  assoc_getd Z.eqb d
    (fold_left (fun acc s =>
                  if SignalType_eqb (signal_type s) t then
                    match align_date (date s) idx with
                    | None => acc
                    | Some d' => append_at Z.eqb d' s acc
                    end
                  else acc) sigs acc) =
  assoc_getd Z.eqb d acc ++
  filter (fun s => SignalType_eqb (signal_type s) t &&
                   match align_date (date s) idx with Some d' => Z.eqb d' d | None => false end)
         sigs.
Proof.
  induction sigs as [|s r IH]; simpl; intros acc; [now rewrite app_nil_r|].
  rewrite IH. destruct (SignalType_eqb (signal_type s) t); simpl; [|reflexivity].
  destruct (align_date (date s) idx) as [d'|]; [|reflexivity].
  rewrite (assoc_getd_append_at Z.eqb Z.eqb_eq), (Z.eqb_sym d d').
  destruct (d' =? d); simpl; [now rewrite <- app_assoc|now rewrite app_nil_r].
Qed.

(** X9: [_signals_by_date] schedules on date [d] exactly the signals of
    the requested type whose date aligns to [d], in input order; a signal
    whose date is after the last index date is scheduled nowhere. *)
Theorem signals_by_date_spec (signals : list StrategySignal) (t : SignalType)
    (idx : list Z) (d : Z) :
  match assoc_get Z.eqb d (signals_by_date signals t idx) with Some l => l | None => [] end =
  filter (fun s => SignalType_eqb (signal_type s) t &&
                   match align_date (date s) idx with Some d' => Z.eqb d' d | None => false end)
         signals.
Proof.
  transitivity (assoc_getd Z.eqb d (signals_by_date signals t idx)); [reflexivity|].
  unfold signals_by_date. rewrite signals_by_date_fold. reflexivity.
Qed.

Lemma signals_by_symbol_fold sigs t sym : forall acc,
  assoc_getd String.eqb sym
    (fold_left (fun acc s => if SignalType_eqb (signal_type s) t
                             then append_at String.eqb (symbol s) s acc else acc) sigs acc) =
  assoc_getd String.eqb sym acc ++
  filter (fun s => String.eqb (symbol s) sym && SignalType_eqb (signal_type s) t) sigs.
Proof.
  induction sigs as [|s r IH]; simpl; intros acc; [now rewrite app_nil_r|].
  rewrite IH. rewrite (String.eqb_sym (symbol s) sym).
  destruct (SignalType_eqb (signal_type s) t); simpl.
  - rewrite (assoc_getd_append_at String.eqb String.eqb_eq).
    destruct (String.eqb sym (symbol s)); simpl; [now rewrite <- app_assoc|now rewrite app_nil_r].
  - now rewrite andb_false_r.
Qed.

Lemma signals_by_symbol_nonempty sigs t : forall acc,
  Forall (fun kv => snd kv <> []) acc ->
  Forall (fun kv => snd kv <> [])
    (fold_left (fun acc s => if SignalType_eqb (signal_type s) t
                             then append_at String.eqb (symbol s) s acc else acc) sigs acc).
Proof.
  induction sigs as [|s r IH]; simpl; intros acc H; auto.
  apply IH. destruct (SignalType_eqb (signal_type s) t); auto.
  now apply nonempty_append_at.
Qed.

Lemma assoc_get_map_snd {K A B : Type} (eqb : K -> K -> bool) (f : A -> B) k m :
  assoc_get eqb k (map (fun kv => (fst kv, f (snd kv))) m) = option_map f (assoc_get eqb k m).
Proof.
  induction m as [|[k0 v0] r IH]; simpl; auto. now destruct (eqb k k0).
Qed.

(** X10: [_signals_by_symbol] keys a symbol exactly when the input has a
    signal of the requested type for it; its list then holds exactly those
    signals (a permutation of them), sorted by date. *)
Theorem signals_by_symbol_spec (signals : list StrategySignal) (t : SignalType) (sym : string) :
  match assoc_get String.eqb sym (signals_by_symbol signals t) with
  | Some l =>
      Sorted (fun a b => date a <= date b) l /\
      Permutation l (filter (fun s => String.eqb (symbol s) sym &&
                                      SignalType_eqb (signal_type s) t) signals) /\
      l <> []
  | None => filter (fun s => String.eqb (symbol s) sym &&
                             SignalType_eqb (signal_type s) t) signals = []
  end.
Proof.
  unfold signals_by_symbol. rewrite assoc_get_map_snd.
  rewrite (assoc_get_getd String.eqb);
    [|apply signals_by_symbol_nonempty; constructor].
  rewrite signals_by_symbol_fold. simpl.
  destruct (filter _ signals) as [|x r] eqn:E; simpl; auto.
  repeat split.
  - apply (sort_by_sorted_out date (x :: r)).
  - apply (sort_by_perm date (x :: r)).
  - intros H. pose proof (sort_by_length date (x :: r)) as L. simpl in L.
    rewrite H in L. discriminate.
Qed.

Lemma getd_after_pop (buys : list (string * list StrategySignal)) sym sg sgs k :
  assoc_get String.eqb sym buys = Some (sg :: sgs) ->
  incl (assoc_getd String.eqb k (assoc_set String.eqb sym sgs buys))
       (assoc_getd String.eqb k buys).
Proof.
  intros Hb. unfold assoc_getd.
  rewrite (assoc_get_set_eq String.eqb String.eqb_eq).
  destruct (String.eqb k sym) eqn:E; [|apply incl_refl].
  apply String.eqb_eq in E; subst k. rewrite Hb. apply incl_tl, incl_refl.
Qed.

Lemma prepare_entries_sound_gen allocs fr fb : forall buys es,
  prepare_entries allocs buys fr fb = inr es ->
  (List.length es <= List.length allocs)%nat /\
  Forall (fun e => 0 < e_shares e /\ (0 < e_price e)%Q /\
     exists sg, In sg (assoc_getd String.eqb (e_symbol e) buys) /\
                align_date (date sg) (index fr) = Some (e_date e) /\
                e_strategy e = strategy sg) es.
Proof.
  induction allocs as [|a rest IH]; intros buys es H; cbn [prepare_entries] in H.
  - inversion H; subst. split; [simpl; lia|constructor].
  - destruct (assoc_get String.eqb _ buys) as [[|sg sgs]|] eqn:Eb;
      [destruct (IH _ _ H); simpl; split; auto; lia| |destruct (IH _ _ H); simpl; split; auto; lia].
    assert (Hlift : forall es', Forall (fun e => 0 < e_shares e /\ (0 < e_price e)%Q /\
        exists sg0, In sg0 (assoc_getd String.eqb (e_symbol e)
                              (assoc_set String.eqb
                                 match al_symbol a with
                                 | Some s => if String.eqb s "" then fb else s
                                 | None => fb
                                 end sgs buys)) /\
                    align_date (date sg0) (index fr) = Some (e_date e) /\
                    e_strategy e = strategy sg0) es' ->
      Forall (fun e => 0 < e_shares e /\ (0 < e_price e)%Q /\
        exists sg0, In sg0 (assoc_getd String.eqb (e_symbol e) buys) /\
                    align_date (date sg0) (index fr) = Some (e_date e) /\
                    e_strategy e = strategy sg0) es').
    { intros es' Hf. eapply Forall_impl; [|exact Hf].
      intros e (H1 & H2 & sg0 & H3 & H4 & H5). repeat split; auto.
      exists sg0. repeat split; auto. eapply getd_after_pop; eauto. }
    destruct (align_date (date sg) (index fr)) as [d|] eqn:Ea;
      [|destruct (IH _ _ H); simpl; split; auto; lia].
    apply bind_inr in H as [price [_ H]].
    destruct (Qle_bool price 0) eqn:Hp; [destruct (IH _ _ H); simpl; split; auto; lia|].
    match type of H with context [if ?c then _ else _] => destruct c eqn:Es end;
      [destruct (IH _ _ H); simpl; split; auto; lia|].
    apply bind_inr in H as [rest' [Hr H]]. inversion H; subst es.
    destruct (IH _ _ Hr) as [Hl Hf]. simpl. split; [lia|].
    constructor; [|now apply Hlift]. cbn [e_shares e_price e_symbol e_date e_strategy].
    repeat split.
    + apply Z.leb_gt in Es. exact Es.
    + apply Qnot_le_lt. intros h. apply Qle_bool_iff in h. congruence.
    + exists sg. repeat split; auto. unfold assoc_getd. rewrite Eb. now left.
Qed.

(** X11: every entry [_prepare_entries] schedules holds a positive number
    of shares at a positive price, on the index date that one of the BUY
    signals of its symbol aligns to, with that signal's strategy; there is
    at most one entry per allocation. *)
Theorem prepare_entries_sound (allocs : list Alloc) (buys : list (string * list StrategySignal))
    (fr : Frame) (fallback : string) (es : list Entry) :
  prepare_entries allocs buys fr fallback = inr es ->
  (List.length es <= List.length allocs)%nat /\
  Forall (fun e => 0 < e_shares e /\ (0 < e_price e)%Q /\ In (e_date e) (index fr) /\
     exists sg, In sg (assoc_getd String.eqb (e_symbol e) buys) /\
                align_date (date sg) (index fr) = Some (e_date e) /\
                e_strategy e = strategy sg) es.
Proof.
  intros H. destruct (prepare_entries_sound_gen allocs fr fallback buys es H) as [Hl Hf].
  split; auto. eapply Forall_impl; [|exact Hf].
  intros e (H1 & H2 & sg & H3 & H4 & H5). repeat split; eauto.
  pose proof (align_date_correct (date sg) (index fr)) as A. rewrite H4 in A. tauto.
Qed.

Lemma py_int_inject (z : Z) : py_int (inject_Z z) = z.
Proof.
  unfold py_int. destruct (Qle_bool 0 (inject_Z z)); [apply Qfloor_Z|].
  change (- inject_Z z)%Q with (inject_Z (- z)). rewrite Qfloor_Z. lia.
Qed.

Lemma prepare_entries_fixed allocs fr fb : forall buys,
  Forall (fun a => exists p sh, al_entry_price a = Some p /\ (0 < p)%Q /\
                                al_shares a = Some (inject_Z sh) /\ 0 < sh) allocs ->
  exists es, prepare_entries allocs buys fr fb = inr es /\
  Forall (fun e => exists a, In a allocs /\ al_entry_price a = Some (e_price e) /\
                             al_shares a = Some (inject_Z (e_shares e)) /\
                             e_symbol e = match al_symbol a with
                                          | Some s => if String.eqb s "" then fb else s
                                          | None => fb
                                          end) es.
Proof.
  induction allocs as [|a rest IH]; intros buys Hf; cbn [prepare_entries].
  - exists []. split; [reflexivity|constructor].
  - inversion Hf as [|? ? (p & sh & Hp & Hpos & Hs & Hsh) Hr]; subst.
    assert (Hlift : forall buys', (exists es, prepare_entries rest buys' fr fb = inr es /\
        Forall (fun e => exists a0, In a0 rest /\ al_entry_price a0 = Some (e_price e) /\
                   al_shares a0 = Some (inject_Z (e_shares e)) /\
                   e_symbol e = match al_symbol a0 with
                                | Some s => if String.eqb s "" then fb else s
                                | None => fb
                                end) es) ->
      exists es, prepare_entries rest buys' fr fb = inr es /\
        Forall (fun e => exists a0, In a0 (a :: rest) /\ al_entry_price a0 = Some (e_price e) /\
                   al_shares a0 = Some (inject_Z (e_shares e)) /\
                   e_symbol e = match al_symbol a0 with
                                | Some s => if String.eqb s "" then fb else s
                                | None => fb
                                end) es).
    { intros buys' (es & H1 & H2). exists es. split; auto.
      eapply Forall_impl; [|exact H2]. intros e (a0 & H3 & H4). exists a0.
      split; [now right|auto]. }
    destruct (assoc_get String.eqb _ buys) as [[|sg sgs]|]; [apply Hlift, IH, Hr| |apply Hlift, IH, Hr].
    destruct (align_date (date sg) (index fr)) as [d|]; [|apply Hlift, IH, Hr].
    rewrite Hp.
    destruct (Qeq_bool p 0) eqn:Eq.
    { apply Qeq_bool_eq in Eq. rewrite Eq in Hpos. discriminate. }
    simpl. destruct (Qle_bool p 0) eqn:Ele.
    { apply Qle_bool_iff in Ele. lra. }
    rewrite Hs, py_int_inject.
    destruct (sh <=? 0) eqn:Esh; [lia|].
    destruct (IH (assoc_set String.eqb
                   match al_symbol a with
                   | Some s => if String.eqb s "" then fb else s
                   | None => fb
                   end sgs buys) Hr) as (es & H1 & H2).
    rewrite H1. simpl. eexists; split; [reflexivity|].
    constructor.
    + exists a. simpl. split; [now left|auto].
    + eapply Forall_impl; [|exact H2]. intros e (a0 & H3 & H4). exists a0.
      split; [now right|auto].
Qed.

(** X12: with the position sizer that [main.build_position_sizer] builds,
    [_prepare_entries] never raises, and each entry it schedules takes its
    share count and its price unchanged from one of the sizer's allocations
    for the same symbol (the run's symbol when the allocation's is empty). *)
Theorem main_sizer_entries (cfg : Sizer.RiskManagementConfig) (signals : list StrategySignal)
    (equity : Q) (buys : list (string * list StrategySignal)) (fr : Frame) (fallback : string) :
  exists es,
    prepare_entries (Main.build_position_sizer cfg signals equity) buys fr fallback = inr es /\
    Forall (fun e => exists a, In a (Sizer.size_positions cfg signals equity []) /\
                               e_shares e = Sizer.shares a /\
                               e_price e = Sizer.entry_price a /\
                               e_symbol e = (if String.eqb (Sizer.pa_symbol a) ""
                                             then fallback else Sizer.pa_symbol a)) es.
Proof.
  destruct (SizerExtra.size_positions_ok cfg signals equity []) as [Hok _].
  destruct (prepare_entries_fixed (Main.build_position_sizer cfg signals equity) fr fallback buys)
    as (es & H1 & H2).
  - unfold Main.build_position_sizer. apply Forall_map.
    eapply Forall_impl; [|exact Hok]. intros a (Hs & Hp & _).
    exists (Sizer.entry_price a), (Sizer.shares a). simpl. repeat split; auto.
  - exists es. split; auto. eapply Forall_impl; [|exact H2].
    intros e (a & Ha & Hp & Hs & Hy). unfold Main.build_position_sizer in Ha.
    apply in_map_iff in Ha as (a0 & <- & Ha0). exists a0. simpl in Hp, Hs, Hy.
    injection Hp as Hp. injection Hs as Hs. repeat split; auto.
Qed.

Lemma cash_flow_app l1 l2 : (cash_flow (l1 ++ l2) == cash_flow l1 + cash_flow l2)%Q.
Proof.
  induction l1 as [|t r IH]; simpl; [lra|]. unfold cash_flow in *. simpl. rewrite IH. lra.
Qed.

Lemma flows_trans (st1 st2 st3 : SimState) :
  (exists nw, trades_log st2 = trades_log st1 ++ nw /\
              (cash st2 == cash st1 + cash_flow nw)%Q) ->
  (exists nw, trades_log st3 = trades_log st2 ++ nw /\
              (cash st3 == cash st2 + cash_flow nw)%Q) ->
  exists nw, trades_log st3 = trades_log st1 ++ nw /\ (cash st3 == cash st1 + cash_flow nw)%Q.
Proof.
  intros (n1 & H1 & C1) (n2 & H2 & C2). exists (n1 ++ n2). split.
  - now rewrite H2, H1, app_assoc.
  - rewrite C2, C1, cash_flow_app. lra.
Qed.

Lemma flows_refl (st : SimState) :
  exists nw, trades_log st = trades_log st ++ nw /\ (cash st == cash st + cash_flow nw)%Q.
Proof. exists []. split; [now rewrite app_nil_r|unfold cash_flow; simpl; lra]. Qed.

Lemma buy_fill_flow tc d st e :
  exists nw, trades_log (buy_fill tc d st e) = trades_log st ++ nw /\
             (cash (buy_fill tc d st e) == cash st + cash_flow nw)%Q.
Proof.
  unfold buy_fill. split_if; [apply flows_refl|]. split_if; [apply flows_refl|].
  eexists; split; [reflexivity|]. unfold cash_flow, trade_cash. simpl. lra.
Qed.

Lemma fold_buy_flow tc d todays : forall st,
  exists nw, trades_log (fold_left (buy_fill tc d) todays st) = trades_log st ++ nw /\
             (cash (fold_left (buy_fill tc d) todays st) == cash st + cash_flow nw)%Q.
Proof.
  induction todays as [|e r IH]; simpl; intros st; [apply flows_refl|].
  eapply flows_trans; [apply buy_fill_flow|apply IH].
Qed.

Lemma sell_fill_flow tc fr d st sg st' :
  sell_fill tc fr d st sg = inr st' ->
  exists nw, trades_log st' = trades_log st ++ nw /\ (cash st' == cash st + cash_flow nw)%Q.
Proof.
  unfold sell_fill. destruct (assoc_get String.eqb (symbol sg) (positions st)).
  - intros H. apply bind_inr in H as [price [_ H]]. inversion H; subst.
    eexists; split; [reflexivity|]. unfold cash_flow, trade_cash. simpl. lra.
  - intros H; inversion H; subst. apply flows_refl.
Qed.

Lemma sell_fills_flow tc fr d sgs : forall st st',
  sell_fills tc fr d st sgs = inr st' ->
  exists nw, trades_log st' = trades_log st ++ nw /\ (cash st' == cash st + cash_flow nw)%Q.
Proof.
  induction sgs as [|sg r IH]; simpl; intros st st' H.
  - inversion H; subst. apply flows_refl.
  - apply bind_inr in H as [st1 [H1 H2]].
    eapply flows_trans; [eapply sell_fill_flow; eauto|eapply IH; eauto].
Qed.

Lemma step_day_flow tc fr sells st d st' :
  step_day tc fr sells st d = inr st' ->
  exists nw, trades_log st' = trades_log st ++ nw /\ (cash st' == cash st + cash_flow nw)%Q.
Proof.
  unfold step_day. intros H.
  apply bind_inr in H as [st2 [H1 H]]. apply bind_inr in H as [eq [_ H]].
  inversion H; subst; clear H.
  apply flows_trans with st2.
  - eapply flows_trans; [|eapply sell_fills_flow; exact H1].
    match goal with |- context [fold_left (buy_fill tc d) ?l ?s] =>
      destruct (fold_buy_flow tc d l s) as (nw & E1 & E2) end.
    exists nw. split; auto.
  - exists []. cbn [trades_log cash]. split; [now rewrite app_nil_r|].
    unfold cash_flow; simpl; lra.
Qed.

Lemma simulate_flow tc fr sells dates : forall st st',
  simulate tc fr sells dates st = inr st' ->
  exists nw, trades_log st' = trades_log st ++ nw /\ (cash st' == cash st + cash_flow nw)%Q.
Proof.
  induction dates as [|d ds IH]; simpl; intros st st' H.
  - inversion H; subst. apply flows_refl.
  - apply bind_inr in H as [st1 [H1 H2]].
    eapply flows_trans; [eapply step_day_flow; eauto|eapply IH; eauto].
Qed.

(** X13: the trade log accounts for every change of cash: over a
    simulation, the cash moves by exactly the sum of the new trades' cash
    flows, a BUY paying its value plus fees and a SELL receiving its value
    less fees. *)
Theorem simulate_cash_accounting (tc : Q) (fr : Frame) (sells : list (Z * list StrategySignal))
    (dates : list Z) (st st' : SimState) :
  simulate tc fr sells dates st = inr st' ->
  exists nw, trades_log st' = trades_log st ++ nw /\ (cash st' == cash st + cash_flow nw)%Q.
Proof. apply simulate_flow. Qed.

(** X14: a BUY fill for a symbol that already has an open position
    replaces that position by one holding only the newly bought shares (the
    earlier shares are not added); the other symbols' positions are
    untouched. A fill that does not happen leaves the state as it was. *)
Theorem buy_fill_replaces_position (tc : Q) (d : Z) (st : SimState) (e : Entry) :
  buy_fill tc d st e = st \/
  exists sh, 0 < sh <= e_shares e /\
    assoc_get String.eqb (e_symbol e) (positions (buy_fill tc d st e)) =
      Some (mkPosition sh (e_price e) d (e_strategy e) (inject_Z sh * e_price e * tc)%Q) /\
    (forall k, k <> e_symbol e ->
       assoc_get String.eqb k (positions (buy_fill tc d st e)) =
       assoc_get String.eqb k (positions st)) /\
    trades_log (buy_fill tc d st e) =
      trades_log st ++ [mkTrade ABUY (e_symbol e) d (inject_Z sh) (e_price e)
                                (inject_Z sh * e_price e)%Q (inject_Z sh * e_price e * tc)%Q
                                (e_strategy e) None].
Proof.
  unfold buy_fill. split_if; [now left|]. split_if; [now left|]. right.
  set (ma := Qfloor (cash st / (e_price e * (1 + tc)))) in *.
  exists (if e_shares e >? ma then ma else e_shares e). cbn [positions trades_log].
  repeat split.
  - destruct (e_shares e >? ma) eqn:Eg; lia.
  - destruct (e_shares e >? ma) eqn:Eg; lia.
  - rewrite (assoc_get_set_eq String.eqb String.eqb_eq), String.eqb_refl. reflexivity.
  - intros k Hk. rewrite (assoc_get_set_eq String.eqb String.eqb_eq).
    destruct (String.eqb k (e_symbol e)) eqn:Ek; auto. now apply String.eqb_eq in Ek.
Qed.

Lemma prepare_entries_sound_witness :
  exists es,
    prepare_entries [mkAlloc (Some "TEST") (Some 10%Q) (Some 102%Q) None]
      [("TEST", [mkSignal "TEST" 1 "dummy" BUY (1 # 2) []])] Scenario.data "TEST" = inr es /\
    ((List.length es <= 1)%nat /\
     Forall (fun e => 0 < e_shares e /\ (0 < e_price e)%Q /\
                      In (e_date e) (index Scenario.data) /\
        exists sg, In sg (assoc_getd String.eqb (e_symbol e)
                            [("TEST", [mkSignal "TEST" 1 "dummy" BUY (1 # 2) []])]) /\
                   align_date (date sg) (index Scenario.data) = Some (e_date e) /\
                   e_strategy e = strategy sg) es).
Proof.
  destruct (prepare_entries [mkAlloc (Some "TEST") (Some 10%Q) (Some 102%Q) None]
              [("TEST", [mkSignal "TEST" 1 "dummy" BUY (1 # 2) []])] Scenario.data "TEST")
    as [err|es] eqn:E; [vm_compute in E; discriminate|].
  exists es. split; [reflexivity|].
  exact (prepare_entries_sound [mkAlloc (Some "TEST") (Some 10%Q) (Some 102%Q) None]
           [("TEST", [mkSignal "TEST" 1 "dummy" BUY (1 # 2) []])] Scenario.data "TEST" es E).
Defined.

Lemma simulate_cash_accounting_witness :
  exists su st,
    prepare Scenario.data Scenario.buy_sell_strategy (Scenario.half_sizer Scenario.data)
            100000 "TEST" = inr su /\
    simulate 0 (s_frame su) (s_sells su) (index (s_frame su)) (initial_state 100000 su) = inr st /\
    exists nw, trades_log st = trades_log (initial_state 100000 su) ++ nw /\
               (cash st == cash (initial_state 100000 su) + cash_flow nw)%Q.
Proof.
  destruct (prepare Scenario.data Scenario.buy_sell_strategy (Scenario.half_sizer Scenario.data)
              100000 "TEST") as [err|su] eqn:Ep; [vm_compute in Ep; discriminate|].
  destruct (simulate 0 (s_frame su) (s_sells su) (index (s_frame su)) (initial_state 100000 su))
    as [err|st] eqn:Es.
  { pose proof Ep as Ep'. vm_compute in Ep'. injection Ep' as <-.
    vm_compute in Es. discriminate. }
  exists su, st. split; [reflexivity|]. split; [exact Es|].
  exact (simulate_cash_accounting 0 (s_frame su) (s_sells su) (index (s_frame su))
           (initial_state 100000 su) st Es).
Defined.

End EngineExtra.

(** ** Aggregator output as a whole *)

Module AggregationExtra.
Import Aggregation.

Lemma SignalType_eqb_refl t : SignalType_eqb t t = true.
Proof. now apply SignalType_eqb_iff. Qed.

Lemma filter_cons_le {A : Type} (f : A -> bool) x l :
  (List.length (filter f l) <= List.length (filter f (x :: l)))%nat.
Proof. simpl. destruct (f x); simpl; lia. Qed.

(** A list in which every element's key selects at most one element has
    no repeated key. *)
Lemma keys_nodup (l : list StrategySignal) :
  (forall x, In x l ->
     List.length (filter (fun s => String.eqb (symbol s) (symbol x) &&
                              SignalType_eqb (signal_type s) (signal_type x)) l) <= 1)%nat ->
  NoDup (map (fun s => (symbol s, signal_type s)) l).
Proof.
  induction l as [|x r IH]; intros H; simpl; constructor.
  - intros Hin. apply in_map_iff in Hin as (y & Hy & Hyr). injection Hy as Hs Ht.
    specialize (H x (or_introl eq_refl)). simpl in H.
    rewrite String.eqb_refl, SignalType_eqb_refl in H. simpl in H.
    assert (Hf : In y (filter (fun s => String.eqb (symbol s) (symbol x) &&
                                       SignalType_eqb (signal_type s) (signal_type x)) r)).
    { apply filter_In. split; [exact Hyr|]. rewrite Hs, Ht, String.eqb_refl.
      apply SignalType_eqb_refl. }
    destruct (filter _ r); [contradiction|simpl in H; lia].
  - apply IH. intros x' Hx'. eapply Nat.le_trans; [apply filter_cons_le|].
    apply H. now right.
Qed.

Lemma combine_signals_props p sym t l sg :
  combine_signals p sym t l = Some sg ->
  l <> [] /\ (min_confidence p <= confidence sg)%Q /\ strategy sg = "aggregated".
Proof.
  unfold combine_signals. destruct l as [|s r].
  - unfold total_weight. simpl. discriminate.
  - destruct (Qeq_bool _ _); [discriminate|].
    destruct (Qltb _ _) eqn:Hl; [discriminate|]. intros H. injection H as <-. simpl.
    split; [discriminate|]. split; [|reflexivity].
    unfold Qltb in Hl. apply negb_false_iff, Qle_bool_iff in Hl. exact Hl.
Qed.

(** X15: [aggregate] returns at most one signal per symbol and signal type;
    every signal it returns has strategy [aggregated] and a confidence of
    at least [min_confidence], and is the combination of a nonempty group
    of input signals of that symbol and type. *)
Theorem aggregate_output_spec :
  forall p signals,
    NoDup (map (fun s => (symbol s, signal_type s)) (aggregate p signals)) /\
    (forall sg, In sg (aggregate p signals) ->
       strategy sg = "aggregated" /\ (min_confidence p <= confidence sg)%Q /\
       combine_signals p (symbol sg) (signal_type sg)
         (group_of (symbol sg) (signal_type sg) signals) = Some sg /\
       exists s, In s signals /\ symbol s = symbol sg /\ signal_type s = signal_type sg).
Proof.
  intros p signals. split.
  - apply keys_nodup. intros x _.
    rewrite AggregationFacts.aggregate_filter.
    destruct (combine_signals _ _ _ _); simpl; lia.
  - intros sg Hin.
    assert (Hf : In sg (filter (fun s => String.eqb (symbol s) (symbol sg) &&
                                        SignalType_eqb (signal_type s) (signal_type sg))
                           (aggregate p signals))).
    { apply filter_In. split; [exact Hin|]. now rewrite String.eqb_refl, SignalType_eqb_refl. }
    rewrite AggregationFacts.aggregate_filter in Hf.
    destruct (combine_signals p (symbol sg) (signal_type sg)
                (group_of (symbol sg) (signal_type sg) signals)) as [sg'|] eqn:C;
      [|contradiction].
    destruct Hf as [<-|[]].
    destruct (combine_signals_props _ _ _ _ _ C) as (Hne & Hc & Hs).
    split; [exact Hs|]. split; [exact Hc|]. split; [reflexivity|].
    destruct (group_of (symbol sg') (signal_type sg') signals) as [|s r] eqn:G; [congruence|].
    assert (Hg : In s (group_of (symbol sg') (signal_type sg') signals)) by (rewrite G; now left).
    unfold group_of in Hg. apply filter_In in Hg as [Hs1 Hs2].
    apply andb_true_iff in Hs2 as [Ha Hb].
    apply String.eqb_eq in Ha. apply SignalType_eqb_iff in Hb.
    exists s. auto.
Qed.

End AggregationExtra.

(** ** CAN SLIM score bounds *)

Module StrategyExtra.
Import Strategies.

Section Bounds.
Variable p : CanSlimParams.
Hypothesis Hw : forall k w, assoc_get String.eqb k (weights p) = Some w -> (0 <= w)%Q.

Lemma weight_or_zero_nonneg k : (0 <= weight_or_zero p k)%Q.
Proof.
  unfold weight_or_zero. destruct (assoc_get String.eqb k (weights p)) eqn:E;
    [exact (Hw _ _ E)|apply Qle_refl].
Qed.

Lemma weight_of_inr k w : weight_of p k = inr w -> w = weight_or_zero p k.
Proof.
  unfold weight_of, weight_or_zero. destruct (assoc_get String.eqb k (weights p));
    [congruence|discriminate].
Qed.

Lemma calculate_components_bound row comps :
  (0 < near_high_threshold p)%Q ->
  (forall h c, row "fifty_two_week_high" = Some h -> row "close" = Some c -> c <= h)%Q ->
  calculate_components p row = inr comps ->
  (sum_scores comps <= max_total_score p)%Q.
Proof.
  intros Hnh Hrow H. unfold calculate_components in H.
  apply bind_inr in H as (e1 & H1 & H).
  apply bind_inr in H as (e2 & H2 & H).
  apply bind_inr in H as (e3 & H3 & H).
  apply bind_inr in H as (e4 & H4 & H).
  injection H as <-. unfold sum_scores, max_total_score. cbn [fold_left snd].
  assert (B1 : (e1 <= weight_or_zero p "earnings")%Q).
  { pose proof (weight_or_zero_nonneg "earnings").
    destruct (row "earnings_growth"); [destruct (Qle_bool _ _)|].
    - apply weight_of_inr in H1. rewrite H1. apply Qle_refl.
    - injection H1 as <-. exact H.
    - injection H1 as <-. exact H. }
  assert (B2 : (e2 <= weight_or_zero p "relative_strength")%Q).
  { pose proof (weight_or_zero_nonneg "relative_strength").
    destruct (row "relative_strength") as [rs|].
    - apply bind_inr in H2 as (w & Ew & E). apply weight_of_inr in Ew. injection E as <-.
      rewrite <- Ew in *. pose proof (Q.le_min_l 1 rs). nra.
    - injection H2 as <-. exact H. }
  assert (B3 : (e3 <= weight_or_zero p "price_near_high")%Q).
  { pose proof (weight_or_zero_nonneg "price_near_high").
    destruct (row "fifty_two_week_high") as [h|] eqn:Eh;
      [destruct (row "close") as [c|] eqn:Ec|].
    - specialize (Hrow h c eq_refl eq_refl).
      destruct (Qltb 0 h) eqn:Hh; [destruct (Qle_bool _ _)|].
      + apply bind_inr in H3 as (w & Ew & E). apply weight_of_inr in Ew. injection E as <-.
        rewrite <- Ew in *.
        unfold Qltb in Hh. apply negb_true_iff in Hh.
        assert (Hh' : (0 < h)%Q).
        { apply Qnot_le_lt. intros Hle. apply Qle_bool_iff in Hle. congruence. }
        assert (Hd : (0 <= (h - c) / h)%Q).
        { apply Qle_shift_div_l; [exact Hh'|]. lra. }
        assert (Hd' : (0 <= (h - c) / h / near_high_threshold p)%Q).
        { apply Qle_shift_div_l; [exact Hnh|]. lra. }
        set (x := ((h - c) / h / near_high_threshold p)%Q) in *. nra.
      + injection H3 as <-. exact H.
      + injection H3 as <-. exact H.
    - injection H3 as <-. exact H.
    - injection H3 as <-. exact H. }
  assert (B4 : (e4 <= weight_or_zero p "volume_increase")%Q).
  { pose proof (weight_or_zero_nonneg "volume_increase").
    destruct (row "volume_change") as [vc|]; [destruct (Qle_bool _ _)|].
    - apply bind_inr in H4 as (w & Ew & E). apply weight_of_inr in Ew. injection E as <-.
      rewrite <- Ew in *. pose proof (Q.le_min_l 1 (vc / volume_increase_threshold p)).
      set (m := Qmin 1 (vc / volume_increase_threshold p)) in *. nra.
    - injection H4 as <-. exact H.
    - injection H4 as <-. exact H. }
  lra.
Qed.

End Bounds.

(** X16: when every configured weight is non-negative, the near-high threshold
    is positive and no bar closes above its 52-week high, CAN SLIM returns
    at most one signal, a BUY whose confidence lies between [min_score] and
    the sum of the four component weights. *)
Theorem canslim_confidence_bounds :
  forall p sym prices sigs,
    (forall k w, assoc_get String.eqb k (weights p) = Some w -> 0 <= w)%Q ->
    (0 < near_high_threshold p)%Q ->
    (forall d row h c, In (d, row) (rows prices) ->
       row "fifty_two_week_high" = Some h -> row "close" = Some c -> c <= h)%Q ->
    canslim_generate p sym prices = inr sigs ->
    (List.length sigs <= 1)%nat /\
    Forall (fun s => signal_type s = BUY /\ symbol s = sym /\
                     (min_score p <= confidence s <= max_total_score p)%Q) sigs.
Proof.
  intros p sym prices sigs Hw Hnh Hrows H. unfold canslim_generate in H.
  destruct (frame_empty prices).
  { injection H as <-. simpl. split; [lia|constructor]. }
  destruct (missing_columns canslim_required (sort_index prices)); [|discriminate].
  destruct (last_row (sort_index prices)) as [[d row]|] eqn:El.
  2:{ injection H as <-. simpl. split; [lia|constructor]. }
  apply bind_inr in H as (comps & Hc & H).
  assert (Hin : In (d, row) (rows prices)).
  { unfold last_row, sort_index in El. cbn [rows] in El.
    destruct (rev (sort_by fst (rows prices))) as [|x xs] eqn:Ev; [discriminate|].
    injection El as ->. apply (Permutation_in _ (EngineExtra.sort_by_perm fst (rows prices))).
    apply in_rev. rewrite Ev. now left. }
  assert (Hb := calculate_components_bound p Hw row comps Hnh
                  (fun h c => Hrows d row h c Hin) Hc).
  destruct (Qltb (sum_scores comps) (min_score p)) eqn:Hl.
  - injection H as <-. simpl. split; [lia|constructor].
  - injection H as <-. simpl. split; [lia|]. constructor; [|constructor].
    cbn [signal_type symbol confidence]. split; [reflexivity|]. split; [reflexivity|].
    split; [|exact Hb].
    unfold Qltb in Hl. apply negb_false_iff, Qle_bool_iff in Hl. exact Hl.
Qed.

Lemma canslim_confidence_bounds_witness :
  exists sigs,
    canslim_generate canslim_default "TEST" Scenario.canslim_data = inr sigs /\
    (List.length sigs <= 1)%nat /\
    Forall (fun s => signal_type s = BUY /\ symbol s = "TEST" /\
                     (min_score canslim_default <= confidence s <=
                      max_total_score canslim_default)%Q) sigs.
Proof.
  destruct (canslim_generate canslim_default "TEST" Scenario.canslim_data) as [e|sigs] eqn:E;
    [vm_compute in E; discriminate|].
  exists sigs. split; [reflexivity|].
  apply (canslim_confidence_bounds canslim_default "TEST" Scenario.canslim_data sigs).
  - intros k w Hk. unfold canslim_default in Hk. cbn [weights assoc_get] in Hk.
    repeat (destruct (String.eqb k _); [injection Hk as <-; vm_compute; discriminate|]).
    discriminate.
  - vm_compute. reflexivity.
  - intros d row h c [Hr|[]] Hh Hc. injection Hr as <- <-.
    vm_compute in Hh. vm_compute in Hc. injection Hh as <-. injection Hc as <-.
    vm_compute. discriminate.
  - exact E.
Defined.

End StrategyExtra.
